(** * frame-calculator: stiffness matrices of a Timoshenko beam element

    A shallow embedding of [frame_calculator/line.py] and of
    [frame_calculator/section.py], with the properties stated by the
    specification.

    Modelling conventions.
    - Python floats are idealised as real numbers ([R]): rounding, overflow
      and NaN are outside the model.  A division whose divisor is zero
      raises [ZeroDivisionError], as it does for Python floats.
    - A function that may raise returns a [result]; exceptions are the
      constructors of [exn].
    - A generator is modelled by the list of the values it yields, in yield
      order.  Both generators of [line.py] do all the work that can raise
      before their first [yield], so "raises" and "yields the list" are the
      only two outcomes.
    - Nested tuples and arrays are lists of rows.
    - A dictionary is a finite map from strings to Python values; a
      function that receives a dictionary by reference returns, next to
      its result, the contents of that dictionary when it finishes. *)

From stdpp Require Import base list gmap strings.
From Stdlib Require Import Reals Lra Psatz.

Open Scope R_scope.

(** ** Exceptions and results *)

Inductive exn : Set :=
  | ZeroDivisionError
  | KeyError
  | NameError
  | TypeError
  | ValueError
  | InvalidGeometry.

Inductive result (A : Type) : Type :=
  | Ok (a : A)
  | Raise (e : exn).

Arguments Ok {A} a.
Arguments Raise {A} e.

Definition bind {A B : Type} (c : result A) (k : A -> result B) : result B :=
  match c with
  | Ok a => k a
  | Raise e => Raise e
  end.

Notation "'let!' x ':=' c 'in' k" := (bind c (fun x => k))
  (at level 10, x name, c at level 100, k at level 200).

(** Python's [x / y] on floats. *)
Definition pdiv (x y : R) : result R :=
  if Req_dec_T y 0 then Raise ZeroDivisionError else Ok (x / y).

(** ** Matrices as lists of rows *)

Definition matrix : Type := list (list R).

Definition ncols (M : matrix) : nat := length (hd [] M).

Definition column (M : matrix) (j : nat) : list R :=
  map (fun row => nth j row 0) M.

Definition transpose (M : matrix) : matrix :=
  map (column M) (seq 0 (ncols M)).

(** Inner product of two vectors. *)
Definition vdot (u v : list R) : R :=
  fold_right Rplus 0 (zip_with Rmult u v).

(** [numpy.dot] on two-dimensional arguments. *)
Definition dot (A B : matrix) : matrix :=
  map (fun row => map (vdot row) (transpose B)) A.

(** [scipy.linalg.block_diag] of two blocks. *)
Definition block_diag (A B : matrix) : matrix :=
  map (fun row => row ++ repeat 0 (ncols B)) A ++
  map (fun row => repeat 0 (ncols A) ++ row) B.

(** The matrix [[M11, M12], [M21, M22]] assembled from its four blocks. *)
Definition assemble (M11 M12 M21 M22 : matrix) : matrix :=
  zip_with app M11 M12 ++ zip_with app M21 M22.

(** The quadratic form [v . K . v]. *)
Definition quad (v : list R) (K : matrix) : R :=
  vdot v (map (fun row => vdot row v) K).

Definition symmetric (K : matrix) : Prop := transpose K = K.

Definition positive_semidefinite (K : matrix) : Prop :=
  forall v : list R, length v = length K -> 0 <= quad v K.

(** ** frame_calculator/line.py *)

(** Lines 42-45: [if Ay == 0: Ay = Ax] (and the same for [Az]). *)
Definition defaulted (Ax A : R) : R :=
  if Req_dec_T A 0 then Ax else A.

(** Lines 46-47: [12. * I / G / A / L / L * E if I != 0 else 0.] *)
Definition shear_factor (I G A L E : R) : result R :=
  if Req_dec_T I 0 then Ok 0
  else
    let! t1 := pdiv (12 * I) G in
    let! t2 := pdiv t1 A in
    let! t3 := pdiv t2 L in
    let! t4 := pdiv t3 L in
    Ok (t4 * E).

(** Lines 48-49: [float(X) / L * C]. *)
Definition bar_stiffness (X L C : R) : result R :=
  let! t := pdiv X L in
  Ok (t * C).

(** Lines 50-51: [I / (phi + 1) / L / L * E]. *)
Definition k_pre (I phi L E : R) : result R :=
  let! t1 := pdiv I (phi + 1) in
  let! t2 := pdiv t1 L in
  let! t3 := pdiv t2 L in
  Ok (t3 * E).

(** The ten coefficients of one bending plane. *)
Record bending : Set := Bending {
  k11 : R; k12 : R; k13 : R; k14 : R;
  k22 : R; k23 : R; k24 : R;
  k33 : R; k34 : R;
  k44 : R
}.

(** Lines 52-61. *)
Definition kz_terms (phiY kzPre L : R) : bending :=
  let kz11 := kzPre * 12 in
  let kz12 := L * kzPre * 6 in
  let kz13 := - kz11 in
  let kz14 := kz12 in
  let kz22 := (phiY + 4) * kzPre * L * L in
  let kz23 := - kz12 in
  let kz24 := (2 - phiY) * kzPre * L * L in
  let kz33 := kz11 in
  let kz34 := kz23 in
  let kz44 := kz22 in
  Bending kz11 kz12 kz13 kz14 kz22 kz23 kz24 kz33 kz34 kz44.

(** Lines 62-71. *)
Definition ky_terms (phiZ kyPre L : R) : bending :=
  let ky11 := kyPre * 12 in
  let ky12 := - L * kyPre * 6 in
  let ky13 := - ky11 in
  let ky14 := ky12 in
  let ky22 := (phiZ + 4) * kyPre * L * L in
  let ky23 := - ky12 in
  let ky24 := (2 - phiZ) * kyPre * L * L in
  let ky33 := ky11 in
  let ky34 := ky23 in
  let ky44 := ky22 in
  Bending ky11 ky12 ky13 ky14 ky22 ky23 ky24 ky33 ky34 ky44.

(** Lines 72-103: the four tuples yielded, in order. *)
Definition yields (a s : R) (kz ky : bending) : list matrix :=
  [ [ [a; 0; 0; 0; 0; 0];
      [0; k11 kz; 0; 0; 0; k12 kz];
      [0; 0; k11 ky; 0; k12 ky; 0];
      [0; 0; 0; s; 0; 0];
      [0; 0; k12 ky; 0; k22 ky; 0];
      [0; k12 kz; 0; 0; 0; k22 kz] ];
    [ [- a; 0; 0; 0; 0; 0];
      [0; k13 kz; 0; 0; 0; k14 kz];
      [0; 0; k13 ky; 0; k14 ky; 0];
      [0; 0; 0; - s; 0; 0];
      [0; 0; k23 ky; 0; k24 ky; 0];
      [0; k23 kz; 0; 0; 0; k24 kz] ];
    [ [- a; 0; 0; 0; 0; 0];
      [0; k13 kz; 0; 0; 0; k23 kz];
      [0; 0; k13 ky; 0; k23 ky; 0];
      [0; 0; 0; - s; 0; 0];
      [0; 0; k14 ky; 0; k24 ky; 0];
      [0; k14 kz; 0; 0; 0; k24 kz] ];
    [ [a; 0; 0; 0; 0; 0];
      [0; k33 kz; 0; 0; 0; k34 kz];
      [0; 0; k33 ky; 0; k34 ky; 0];
      [0; 0; 0; s; 0; 0];
      [0; 0; k34 ky; 0; k44 ky; 0];
      [0; k34 kz; 0; 0; 0; k44 kz] ] ].

(** Lines 46-103, with the shear areas already defaulted. *)
Definition stiffness_body (L E G Ax Iz Iy Ay Az J : R) : result (list matrix) :=
  let! phiY := shear_factor Iz G Ay L E in
  let! phiZ := shear_factor Iy G Az L E in
  let! a := bar_stiffness Ax L E in
  let! s := bar_stiffness J L G in
  let! kzPre := k_pre Iz phiY L E in
  let! kyPre := k_pre Iy phiZ L E in
  Ok (yields a s (kz_terms phiY kzPre L) (ky_terms phiZ kyPre L)).

Definition stiffness_local (L E G Ax Iz Iy Ay Az J : R) : result (list matrix) :=
  let Ay := defaulted Ax Ay in
  let Az := defaulted Ax Az in
  stiffness_body L E G Ax Iz Iy Ay Az J.

(** [numpy.linalg.norm] of the tuple [(x, y, z)]. *)
Definition norm (x y z : R) : R := sqrt (x * x + y * y + z * z).

(** A 3x3 array. *)
Definition vec3 : Type := R * R * R.
Definition mat3 : Type := vec3 * vec3 * vec3.

Definition rows (T : mat3) : matrix :=
  let '((a1, a2, a3), (b1, b2, b3), (c1, c2, c3)) := T in
  [ [a1; a2; a3]; [b1; b2; b3]; [c1; c2; c3] ].

Section Transform.

(** The direction cosines that [transformMatrix] computes for a non-zero
    direction and a roll angle.  [frame_calculator/matrix.py] is not
    among the sources and the specification leaves the reference axis
    and its fallback open, so they are a parameter of the development. *)
Variable direction_cosines : R -> R -> R -> R -> mat3.

(** Modelled from the spec: [transformMatrix] of
    [frame_calculator/matrix.py], which is missing from the sources.
    "Failure: zero-length direction -> signals an invalid-geometry error;
    must not proceed"; otherwise it returns the 3x3 direction-cosine
    matrix of the direction and the roll angle. *)
Definition transformMatrix (x y z theta : R) : result matrix :=
  if Req_dec_T (norm x y z) 0 then Raise InvalidGeometry
  else Ok (rows (direction_cosines x y z theta)).

(** Lines 143-146.  [t] is built when the generator starts, [norm] and
    [stiffness_local] run when the loop is entered; each block [m] is
    yielded as [dot(dot(t, m), r)]. *)
Definition stiffness_global (x y z E G Ax Iz Iy Ay Az theta J : R)
  : result (list matrix) :=
  let! tm := transformMatrix x y z theta in
  let t := block_diag tm tm in
  let r := transpose t in
  let! ms := stiffness_local (norm x y z) E G Ax Iz Iy Ay Az J in
  Ok (map (fun m => dot (dot t m) r) ms).

End Transform.

(** ** frame_calculator/section.py *)

(** The values stored in a parameter dictionary: the shape tag is a string,
    the dimensions are floats. *)
Inductive value : Type :=
  | Str (s : string)
  | Num (x : R).

(** What [convert] returns: a dictionary of coefficients, or [None]. *)
Inductive retval : Type :=
  | Coefficients (d : gmap string R)
  | PyNone.

(** [math.sqrt]. *)
Definition psqrt (x : R) : result R :=
  if Rlt_dec x 0 then Raise ValueError else Ok (sqrt x).

(** Binding of the keyword arguments of a call [f( **kw )]: a required
    parameter, a parameter with a default, and the check that no other
    keyword is passed.  A string where the arithmetic expects a float makes
    the body raise [TypeError]. *)
Definition required (kw : gmap string value) (name : string) : result R :=
  match kw !! name with
  | Some (Num x) => Ok x
  | Some (Str _) => Raise TypeError
  | None => Raise TypeError
  end.

Definition optional (kw : gmap string value) (name : string) (default : R)
  : result R :=
  match kw !! name with
  | Some (Num x) => Ok x
  | Some (Str _) => Raise TypeError
  | None => Ok default
  end.

Definition accepts (kw : gmap string value) (names : list string)
  : result unit :=
  if decide (dom kw ⊆ list_to_set names) then Ok tt else Raise TypeError.

(** Lines 70-134: [h(H, B, tw, tf, r=0)]. *)
Definition h (H B tw tf r : R) : result (gmap string R) :=
  let rd := (1 - 2 / (4 - PI) / 3) * r in
  let rA := (1 - PI * 0.25) * r ^ 2 in
  let rI := (1 / 3 - PI / 16 - 1 / (4 - PI) / 9) * r ^ 4 in
  let A := B * tf * 2 + (H - tf * 2) * tw + rA * 4 in
  let tIf := tf * B * B * B / 12 in
  let tIw := (H - tf * 2) * tw * tw * tw / 12 in
  let tIr := rI + rA * ((tw * 0.25 + rd) * tw + rd * rd) in
  let Iz := tIf * 2 + tIw + tIr * 4 in
  let tIf := B * tf ^ 3 / 12 + B * tf * (H - tf) ^ 2 * 0.25 in
  let tIw := tw * (H - tf * 2) ^ 3 / 12 in
  let tIr := rI + rA * (H * 0.5 - tf - rd) ^ 2 in
  let Iy := tIf * 2 + tIw + tIr * 4 in
  let! zy := pdiv Iy H in
  let! zz := pdiv Iz B in
  let! qy := pdiv Iy A in
  let! iy := psqrt qy in
  let! qz := pdiv Iz A in
  let! iz := psqrt qz in
  Ok (<["Ax" := A]> (<["Ay" := tf * B * 2]> (<["Az" := tw * H]>
     (<["Iy" := Iy]> (<["Iz" := Iz]>
     (<["J" := (B * tf ^ 3 * 2 + (H - tf * 2) * tw ^ 3) / 3]>
     (<["Zy" := zy * 2]> (<["Zz" := zz * 2]>
     (<["iy" := iy]> (<["iz" := iz]> ∅)))))))))).

(** Lines 137-203: [t(H, B, tw, tf, r=0)]. *)
Definition t (H B tw tf r : R) : result (gmap string R) :=
  let rd := (1 - 2 / (4 - PI) / 3) * r in
  let rA := (1 - PI * 0.25) * r ^ 2 in
  let rI := (1 / 3 - PI / 16 - 1 / (4 - PI) / 9) * r ^ 4 in
  let A := B * tf + (H - tf) * tw + rA * 2 in
  let Sy := ((B - tw) * tf * tf + H * H * tw) * 0.5 + rA * (tf + rd) * 2 in
  let! Cy := pdiv Sy A in
  let tIf := tf * B * B * B / 12 in
  let tIw := (H - tf) * tw * tw * tw / 12 in
  let tIr := rI + rA * (tw * 0.5 + rd) ^ 2 in
  let Iz := tIf + tIw + tIr * 2 in
  let tIf := B * tf * tf * tf / 12 + B * tf * (Cy - tf * 0.5) ^ 2 in
  let tIw := tw * (H - tf) ^ 3 / 12
             + tw * (H - tf) * ((H + tf) * 0.5 - Cy) ^ 2 in
  let tIr := rI + rA * (Cy - tf - rd) ^ 2 in
  let Iy := tIf + tIw + tIr * 2 in
  let! zy := pdiv Iy (Rmax Cy (H - Cy)) in
  let! zz := pdiv Iz B in
  let! qy := pdiv Iy A in
  let! iy := psqrt qy in
  let! qz := pdiv Iz A in
  let! iz := psqrt qz in
  Ok (<["Ax" := A]> (<["Ay" := tf * B]> (<["Az" := tw * H]>
     (<["Iy" := Iy]> (<["Iz" := Iz]>
     (<["Zy" := zy]> (<["Zz" := zz * 2]>
     (<["iy" := iy]> (<["iz" := iz]> (<["Cz" := Cy]> ∅)))))))))).

(** Lines 206-252: [o(D, t=0)]. *)
Definition o (D t : R) : result (gmap string R) :=
  let A := 0.25 * D ^ 2 * PI in
  let I := 0.015625 * D ^ 4 * PI in
  let hollow :=
    if Req_dec_T t 0 then (A, I)
    else (A - 0.25 * (D - t) ^ 2 * PI, I - 0.015625 * (D - t) ^ 2 * PI) in
  let A := fst hollow in
  let I := snd hollow in
  let! Z := pdiv (0.5 * I) D in
  let! q := pdiv I A in
  let! i := psqrt q in
  Ok (<["Ax" := A]> (<["Iy" := I]> (<["Iz" := I]>
     (<["Zy" := Z]> (<["Zz" := Z]>
     (<["iy" := i]> (<["iz" := i]> (<["J" := I * 2]> ∅)))))))).

(** The calls [h( **kw )], [t( **kw )] and [o( **kw )]. *)
Definition call_h (kw : gmap string value) : result (gmap string R) :=
  let! _ := accepts kw ["H"; "B"; "tw"; "tf"; "r"] in
  let! H := required kw "H" in
  let! B := required kw "B" in
  let! tw := required kw "tw" in
  let! tf := required kw "tf" in
  let! r := optional kw "r" 0 in
  h H B tw tf r.

Definition call_t (kw : gmap string value) : result (gmap string R) :=
  let! _ := accepts kw ["H"; "B"; "tw"; "tf"; "r"] in
  let! H := required kw "H" in
  let! B := required kw "B" in
  let! tw := required kw "tw" in
  let! tf := required kw "tf" in
  let! r := optional kw "r" 0 in
  t H B tw tf r.

Definition call_o (kw : gmap string value) : result (gmap string R) :=
  let! _ := accepts kw ["D"; "t"] in
  let! D := required kw "D" in
  let! t := optional kw "t" 0 in
  o D t.

(** [shape == tag] for a string literal [tag]. *)
Definition is_tag (shape : value) (tag : string) : bool :=
  match shape with
  | Str s => String.eqb s tag
  | Num _ => false
  end.

(** The shape tags that [convert] tests for. *)
Definition recognized (shape : value) : bool :=
  is_tag shape "H" || is_tag shape "T" || is_tag shape "I" ||
  is_tag shape "O" || is_tag shape "C" || is_tag shape "R".

(** Lines 34-46.  [convert] receives its dictionary by reference: the
    second component is the contents of that dictionary when [convert]
    finishes.  The module defines no [i], [c] or [r], so these names raise
    [NameError]; when no branch is taken the function returns [None]. *)
Definition convert (section_parameters : gmap string value)
  : result retval * gmap string value :=
  match section_parameters !! "shape" with
  | None => (Raise KeyError, section_parameters)
  | Some shape =>
      let section_parameters := delete "shape" section_parameters in
      let returned :=
        if is_tag shape "H" then
          let! d := call_h section_parameters in Ok (Coefficients d)
        else if is_tag shape "T" then
          let! d := call_t section_parameters in Ok (Coefficients d)
        else if is_tag shape "I" then Raise NameError
        else if is_tag shape "O" then
          let! d := call_o section_parameters in Ok (Coefficients d)
        else if is_tag shape "C" then Raise NameError
        else if is_tag shape "R" then Raise NameError
        else Ok PyNone in
      (returned, section_parameters)
  end.

(** Lines 66-67.  [kwargs] is a dictionary made for this call from the
    keyword arguments; it is handed to [convert] by reference. *)
Definition properties (shape : value) (kwargs : gmap string value)
  : result retval * gmap string value :=
  let kwargs := <["shape" := shape]> kwargs in
  convert kwargs.

(** ** The formulas of the specification

    Written from the specification's words, with exact division, to be
    compared with what the code computes. *)

(** "phiY = 12 E Iz / (G Ay L^2) when Iz <> 0, else 0". *)
Definition spec_phi (I G A L E : R) : R :=
  if Req_dec_T I 0 then 0 else 12 * E * I / (G * A * L ^ 2).

(** "axial stiffness a = E Ax / L; torsional stiffness s = G J / L". *)
Definition spec_bar (C X L : R) : R := C * X / L.

(** "kzPre = E Iz / ((phiY + 1) L^2)". *)
Definition spec_k_pre (I phi L E : R) : R := E * I / ((phi + 1) * L ^ 2).

(** The inputs the specification calls valid for the local stiffness. *)
Definition valid_input (L E G Ax Iz Iy Ay Az J : R) : Prop :=
  0 < L /\ 0 < E /\ 0 < G /\ 0 < Ax /\
  0 <= Iz /\ 0 <= Iy /\ 0 <= Ay /\ 0 <= Az /\ 0 <= J.

(** The divisors that [stiffness_local] can meet, and the condition that
    one of them is zero: [L]; [G] and the defaulted shear area of a plane
    whose moment of inertia is non-zero; [phiY + 1] and [phiZ + 1]. *)
Definition zero_divisor (L E G Ax Iz Iy Ay Az : R) : Prop :=
  let Ay := defaulted Ax Ay in
  let Az := defaulted Ax Az in
  L = 0 \/
  (Iz <> 0 /\ (G = 0 \/ Ay = 0)) \/
  (Iy <> 0 /\ (G = 0 \/ Az = 0)) \/
  spec_phi Iz G Ay L E + 1 = 0 \/
  spec_phi Iy G Az L E + 1 = 0.

(** Entry [(i, j)] of a matrix, counted from 0. *)
Definition entry (M : matrix) (i j : nat) : R := nth j (nth i M []) 0.

(** Equality of nested lists of reals, entry by entry. *)
Ltac entrywise tac :=
  lazymatch goal with
  | |- (_ :: _) = (_ :: _) => f_equal; entrywise tac
  | |- [] = [] => reflexivity
  | |- _ => tac
  end.

(** Unfolding of the matrix operations on explicit lists. *)
Ltac unfold_matrices :=
  cbv beta iota zeta delta
    [quad assemble dot transpose column ncols vdot block_diag rows
     yields kz_terms ky_terms k11 k12 k13 k14 k22 k23 k24 k33 k34 k44
     map seq nth hd length app repeat zip_with fold_right Nat.add].

(** The direction cosines of a beam along the global x axis without roll,
    used as a concrete instance of the parameter of [transformMatrix]. *)
Definition identity_cosines : R -> R -> R -> R -> mat3 :=
  fun _ _ _ _ => ((1, 0, 0), (0, 1, 0), (0, 0, 1)).

(** The inputs that the specification calls physically valid for the
    global stiffness. *)
Definition physically_valid (x y z E G Ax Iz Iy Ay Az J : R) : Prop :=
  0 < E /\ 0 < G /\ (x, y, z) <> (0, 0, 0) /\
  0 <= Ax /\ 0 <= Iz /\ 0 <= Iy /\ 0 <= Ay /\ 0 <= Az /\ 0 <= J.

(** A bending plane with a non-zero moment of inertia divides by its
    shear area. *)
Definition shear_area_usable (I A : R) : Prop := I = 0 \/ A <> 0.

(** ** Notions used to state further properties of the code *)

(** The product of a matrix and a vector. *)
Definition matvec (K : matrix) (v : list R) : list R :=
  map (fun row => vdot row v) K.

(** A matrix multiplied by a scalar. *)
Definition scale (c : R) (M : matrix) : matrix := map (map (Rmult c)) M.

(** An [n] by [n] matrix. *)
Definition square (n : nat) (M : matrix) : Prop :=
  length M = n /\ Forall (fun row => length row = n) M.

(** A block with an axial and a torsional term only. *)
Definition axial_torsion_block (a s : R) : matrix :=
  [ [a; 0; 0; 0; 0; 0];
    [0; 0; 0; 0; 0; 0];
    [0; 0; 0; 0; 0; 0];
    [0; 0; 0; s; 0; 0];
    [0; 0; 0; 0; 0; 0];
    [0; 0; 0; 0; 0; 0] ].

(** The six rigid-body motions of a beam of length [L] along its local x
    axis, as the twelve displacements of its two ends (three translations
    and three rotations per end): the three translations, the rotation
    about x, and the rotations about y and z seen from the first end. *)
Definition rigid_body_motions (L : R) : list (list R) :=
  [ [1; 0; 0; 0; 0; 0;  1; 0; 0; 0; 0; 0];
    [0; 1; 0; 0; 0; 0;  0; 1; 0; 0; 0; 0];
    [0; 0; 1; 0; 0; 0;  0; 0; 1; 0; 0; 0];
    [0; 0; 0; 1; 0; 0;  0; 0; 0; 1; 0; 0];
    [0; 0; 0; 0; 1; 0;  0; 0; - L; 0; 1; 0];
    [0; 0; 0; 0; 0; 1;  0; L; 0; 0; 0; 1] ].

(** The 3x3 identity. *)
Definition identity3 : mat3 := ((1, 0, 0), (0, 1, 0), (0, 0, 1)).

(** Unfolding of the matrix operations, with the notions above. *)
Ltac unfold_operations :=
  cbv beta iota zeta delta
    [matvec scale axial_torsion_block rigid_body_motions identity3
     quad assemble dot transpose column ncols vdot block_diag rows
     yields kz_terms ky_terms k11 k12 k13 k14 k22 k23 k24 k33 k34 k44
     map seq nth hd length app repeat zip_with fold_right Nat.add].

(** A list of length six, and a 6x6 matrix, written out entry by entry. *)
Ltac explicit_list l H :=
  do 6 (destruct l as [ | ? l]; [discriminate H | ]);
  destruct l; [clear H | discriminate H].

Ltac explicit_square M H :=
  let Hlen := fresh "Hlen" in
  let Hrows := fresh "Hrows" in
  destruct H as [Hlen Hrows];
  explicit_list M Hlen;
  repeat (apply Forall_cons in Hrows;
          let Hrow := fresh "Hrow" in destruct Hrows as [Hrow Hrows]);
  clear Hrows;
  repeat match goal with
         | Hrow : length ?row = 6%nat |- _ => explicit_list row Hrow
         end.

Ltac square_explicit :=
  split; [reflexivity | ];
  repeat (apply Forall_cons; split; [reflexivity | ]);
  apply Forall_nil; exact I.

(** A radius of gyration [i] that agrees with the inertia and the area
    stored next to it: [i >= 0] and [i^2 . A = I]. *)
Definition gyration_consistent (d : gmap string R) (area inertia radius : string)
  : Prop :=
  exists A I i : R,
    d !! area = Some A /\ d !! inertia = Some I /\ d !! radius = Some i /\
    0 <= i /\ i * i * A = I.



(** The successive steps of a computation that returned. *)
Ltac open_binds H :=
  repeat match type of H with
         | bind ?c _ = Ok _ =>
             let v := fresh "v" in
             let Hv := fresh "Hv" in
             destruct c as [v | ?] eqn:Hv; cbn [bind] in H; [ | discriminate H]
         end.

(** Equality of two dictionaries built by the same insertions, value by
    value. *)
Ltac map_entries tac :=
  lazymatch goal with
  | |- <[ _ := ?v ]> _ = <[ _ := ?v' ]> _ =>
      tryif constr_eq v v' then idtac
      else (let Hv := fresh "Hv" in
            assert (Hv : v = v') by tac; rewrite Hv; clear Hv);
      f_equal; map_entries tac
  | |- _ => reflexivity
  end.

(** The decimal constants of section.py as fractions, for [field]. *)
Ltac fractions :=
  try replace 0.015625 with (1 / 64) by lra;
  try replace 0.25 with (1 / 4) by lra;
  try replace 0.5 with (1 / 2) by lra.

(** ** Evaluation lemmas *)

Lemma pdiv_ok (x y : R) : y <> 0 -> pdiv x y = Ok (x / y).
Proof.
  intros Hy. unfold pdiv. destruct (Req_dec_T y 0) as [Heq | _]; [ | reflexivity].
  contradiction.
Qed.

Lemma pdiv_raise (x y : R) : y = 0 -> pdiv x y = Raise ZeroDivisionError.
Proof.
  intros ->. unfold pdiv. destruct (Req_dec_T 0 0) as [_ | Hne]; [reflexivity | ].
  now contradict Hne.
Qed.

Lemma pdiv_cases (x y : R) :
  (y = 0 /\ pdiv x y = Raise ZeroDivisionError) \/
  (y <> 0 /\ pdiv x y = Ok (x / y)).
Proof.
  destruct (Req_dec_T y 0) as [Hy | Hy].
  - left. split; [assumption | now apply pdiv_raise].
  - right. split; [assumption | now apply pdiv_ok].
Qed.

Lemma defaulted_zero (Ax : R) : defaulted Ax 0 = Ax.
Proof.
  unfold defaulted. destruct (Req_dec_T 0 0) as [_ | Hne]; [reflexivity | ].
  now contradict Hne.
Qed.

Lemma defaulted_nonzero (Ax A : R) : A <> 0 -> defaulted Ax A = A.
Proof.
  intros HA. unfold defaulted. destruct (Req_dec_T A 0); [contradiction | reflexivity].
Qed.

Lemma defaulted_idempotent (Ax A : R) : defaulted Ax (defaulted Ax A) = defaulted Ax A.
Proof.
  unfold defaulted. destruct (Req_dec_T A 0) as [HA | HA].
  - destruct (Req_dec_T Ax 0); reflexivity.
  - destruct (Req_dec_T A 0); [contradiction | reflexivity].
Qed.

Lemma defaulted_pos (Ax A : R) : 0 < Ax -> 0 <= A -> 0 < defaulted Ax A.
Proof.
  intros HAx HA. unfold defaulted. destruct (Req_dec_T A 0); lra.
Qed.

Lemma shear_factor_zero (G A L E : R) : shear_factor 0 G A L E = Ok 0.
Proof.
  unfold shear_factor. destruct (Req_dec_T 0 0) as [_ | Hne]; [reflexivity | ].
  now contradict Hne.
Qed.

Lemma shear_factor_spec (I G A L E : R) :
  G <> 0 -> A <> 0 -> L <> 0 ->
  shear_factor I G A L E = Ok (spec_phi I G A L E).
Proof.
  intros HG HA HL. unfold shear_factor, spec_phi.
  destruct (Req_dec_T I 0) as [_ | HI]; [reflexivity | ].
  rewrite (pdiv_ok _ G HG). cbn [bind].
  rewrite (pdiv_ok _ A HA). cbn [bind].
  rewrite (pdiv_ok _ L HL). cbn [bind].
  rewrite (pdiv_ok _ L HL). cbn [bind].
  f_equal. field. repeat split; assumption.
Qed.

Lemma bar_stiffness_spec (X L C : R) :
  L <> 0 -> bar_stiffness X L C = Ok (spec_bar C X L).
Proof.
  intros HL. unfold bar_stiffness, spec_bar.
  rewrite (pdiv_ok _ L HL). cbn [bind]. f_equal. field. assumption.
Qed.

Lemma k_pre_spec (I phi L E : R) :
  L <> 0 -> k_pre I phi L E = pdiv (E * I) ((phi + 1) * L ^ 2).
Proof.
  intros HL. unfold k_pre.
  destruct (pdiv_cases I (phi + 1)) as [[Hz ->] | [Hnz ->]]; cbn [bind].
  - symmetry. apply pdiv_raise. rewrite Hz. ring.
  - rewrite (pdiv_ok _ L HL). cbn [bind].
    rewrite (pdiv_ok _ L HL). cbn [bind].
    rewrite pdiv_ok.
    + f_equal. field. split; assumption.
    + apply Rmult_integral_contrapositive. split; [assumption | ].
      apply pow_nonzero. assumption.
Qed.

Lemma spec_phi_nonneg (I G A L E : R) :
  0 <= I -> 0 < G -> 0 < A -> 0 < L -> 0 <= E -> 0 <= spec_phi I G A L E.
Proof.
  intros HI HG HA HL HE. unfold spec_phi.
  destruct (Req_dec_T I 0); [lra | ].
  apply Rmult_le_pos.
  - apply Rmult_le_pos; [ | assumption]. apply Rmult_le_pos; lra.
  - left. apply Rinv_0_lt_compat.
    apply Rmult_lt_0_compat; [ | apply pow_lt; assumption].
    apply Rmult_lt_0_compat; assumption.
Qed.

(** The code's result in terms of the specification's formulas, whenever
    the divisors [L], [G] and the defaulted shear areas are non-zero. *)
Lemma stiffness_local_spec (L E G Ax Iz Iy Ay Az J : R) :
  L <> 0 -> G <> 0 -> defaulted Ax Ay <> 0 -> defaulted Ax Az <> 0 ->
  let phiY := spec_phi Iz G (defaulted Ax Ay) L E in
  let phiZ := spec_phi Iy G (defaulted Ax Az) L E in
  stiffness_local L E G Ax Iz Iy Ay Az J =
    let! kzPre := pdiv (E * Iz) ((phiY + 1) * L ^ 2) in
    let! kyPre := pdiv (E * Iy) ((phiZ + 1) * L ^ 2) in
    Ok (yields (spec_bar E Ax L) (spec_bar G J L)
               (kz_terms phiY kzPre L) (ky_terms phiZ kyPre L)).
Proof.
  intros HL HG HAy HAz phiY phiZ. unfold stiffness_local, stiffness_body.
  rewrite (shear_factor_spec Iz G _ L E HG HAy HL). cbn [bind].
  rewrite (shear_factor_spec Iy G _ L E HG HAz HL). cbn [bind].
  rewrite !bar_stiffness_spec by assumption. cbn [bind].
  rewrite !k_pre_spec by assumption. reflexivity.
Qed.

(** The same, when the two remaining divisors are non-zero as well. *)
Lemma stiffness_local_value (L E G Ax Iz Iy Ay Az J : R) :
  L <> 0 -> G <> 0 -> defaulted Ax Ay <> 0 -> defaulted Ax Az <> 0 ->
  let phiY := spec_phi Iz G (defaulted Ax Ay) L E in
  let phiZ := spec_phi Iy G (defaulted Ax Az) L E in
  phiY + 1 <> 0 -> phiZ + 1 <> 0 ->
  stiffness_local L E G Ax Iz Iy Ay Az J =
    Ok (yields (spec_bar E Ax L) (spec_bar G J L)
               (kz_terms phiY (spec_k_pre Iz phiY L E) L)
               (ky_terms phiZ (spec_k_pre Iy phiZ L E) L)).
Proof.
  intros HL HG HAy HAz phiY phiZ HY HZ.
  rewrite stiffness_local_spec by assumption. fold phiY phiZ.
  assert (Hsq : L ^ 2 <> 0) by (apply pow_nonzero; assumption).
  rewrite !pdiv_ok by (apply Rmult_integral_contrapositive; split; assumption).
  reflexivity.
Qed.

Lemma spec_phi_zero (G A L E : R) : spec_phi 0 G A L E = 0.
Proof.
  unfold spec_phi. destruct (Req_dec_T 0 0) as [_ | Hne]; [reflexivity | ].
  now contradict Hne.
Qed.

Lemma spec_phi_nonzero (I G A L E : R) :
  I <> 0 -> spec_phi I G A L E = 12 * E * I / (G * A * L ^ 2).
Proof.
  intros HI. unfold spec_phi. destruct (Req_dec_T I 0); [contradiction | reflexivity].
Qed.

(** ** Shape of the yielded blocks *)

Lemma yields_transposes (a s : R) (kz ky : bending) :
  exists M11 M12 M21 M22 : matrix,
    yields a s kz ky = [M11; M12; M21; M22] /\
    transpose M11 = M11 /\ transpose M22 = M22 /\ M21 = transpose M12.
Proof.
  destruct kz, ky. unfold yields. cbn [k11 k12 k13 k14 k22 k23 k24 k33 k34 k44].
  do 4 eexists. split; [reflexivity | ].
  repeat split; reflexivity.
Qed.

Lemma valid_input_divisors (L E G Ax Iz Iy Ay Az J : R) :
  valid_input L E G Ax Iz Iy Ay Az J ->
  L <> 0 /\ G <> 0 /\ 0 < defaulted Ax Ay /\ 0 < defaulted Ax Az /\
  0 <= spec_phi Iz G (defaulted Ax Ay) L E /\
  0 <= spec_phi Iy G (defaulted Ax Az) L E.
Proof.
  intros (HL & HE & HG & HAx & HIz & HIy & HAy & HAz & _).
  pose proof (defaulted_pos Ax Ay HAx HAy) as HAy'.
  pose proof (defaulted_pos Ax Az HAx HAz) as HAz'.
  repeat split; try lra; apply spec_phi_nonneg; lra.
Qed.

(** C10.  On a valid input every divisor that [stiffness_local] meets is
    non-zero: [L] and [G] are positive, the defaulted shear areas are
    positive, and [phiY + 1], [phiZ + 1] are at least 1; hence the function
    raises nothing and yields its four blocks.  With [Ax = 0], [Ay = 0] and
    [Iz <> 0] the defaulted [Ay] is a zero divisor and the call raises
    [ZeroDivisionError]. *)
Theorem stiffness_local_total (L E G Ax Iz Iy Ay Az J : R) :
  valid_input L E G Ax Iz Iy Ay Az J ->
  (L <> 0 /\ G <> 0 /\ 0 < defaulted Ax Ay /\ 0 < defaulted Ax Az /\
   (exists phiY phiZ : R,
      shear_factor Iz G (defaulted Ax Ay) L E = Ok phiY /\
      shear_factor Iy G (defaulted Ax Az) L E = Ok phiZ /\
      1 <= phiY + 1 /\ 1 <= phiZ + 1) /\
   (exists M11 M12 M21 M22 : matrix,
      stiffness_local L E G Ax Iz Iy Ay Az J = Ok [M11; M12; M21; M22])) /\
  (Iz <> 0 -> stiffness_local L E G 0 Iz Iy 0 Az J = Raise ZeroDivisionError).
Proof.
  intros Hvalid.
  destruct (valid_input_divisors _ _ _ _ _ _ _ _ _ Hvalid)
    as (HL & HG & HAy & HAz & HphiY & HphiZ).
  split.
  - repeat (split; [assumption | ]). split.
    + exists (spec_phi Iz G (defaulted Ax Ay) L E),
             (spec_phi Iy G (defaulted Ax Az) L E).
      rewrite !shear_factor_spec by lra.
      repeat split; lra.
    + rewrite stiffness_local_value by lra.
      destruct (yields_transposes
                  (spec_bar E Ax L) (spec_bar G J L)
                  (kz_terms (spec_phi Iz G (defaulted Ax Ay) L E)
                     (spec_k_pre Iz (spec_phi Iz G (defaulted Ax Ay) L E) L E) L)
                  (ky_terms (spec_phi Iy G (defaulted Ax Az) L E)
                     (spec_k_pre Iy (spec_phi Iy G (defaulted Ax Az) L E) L E) L))
        as (M11 & M12 & M21 & M22 & -> & _).
      exists M11, M12, M21, M22. reflexivity.
  - intros HIz. unfold stiffness_local, stiffness_body, shear_factor.
    rewrite defaulted_zero.
    destruct (Req_dec_T Iz 0) as [? | _]; [contradiction | ].
    rewrite (pdiv_ok _ G HG). cbn [bind].
    rewrite pdiv_raise by reflexivity. reflexivity.
Qed.

Lemma stiffness_local_total_witness :
  valid_input 3 2 1 1 1 1 0 0 1 /\
  exists M11 M12 M21 M22 : matrix,
    stiffness_local 3 2 1 1 1 1 0 0 1 = Ok [M11; M12; M21; M22].
Proof.
  assert (Hvalid : valid_input 3 2 1 1 1 1 0 0 1)
    by (unfold valid_input; repeat split; lra).
  split; [exact Hvalid | ].
  exact (proj2 (proj2 (proj2 (proj2 (proj2 (proj1
    (stiffness_local_total 3 2 1 1 1 1 0 0 1 Hvalid))))))).
Defined.

(** C2.  On every valid input the four blocks yielded by [stiffness_local]
    satisfy: [M11] is symmetric, [M22] is symmetric and [M21] is the
    transpose of [M12], exactly. *)
Theorem stiffness_local_block_symmetry (L E G Ax Iz Iy Ay Az J : R) :
  valid_input L E G Ax Iz Iy Ay Az J ->
  exists M11 M12 M21 M22 : matrix,
    stiffness_local L E G Ax Iz Iy Ay Az J = Ok [M11; M12; M21; M22] /\
    symmetric M11 /\ symmetric M22 /\ M21 = transpose M12.
Proof.
  intros Hvalid.
  destruct (valid_input_divisors _ _ _ _ _ _ _ _ _ Hvalid)
    as (HL & HG & HAy & HAz & HphiY & HphiZ).
  rewrite stiffness_local_value by lra.
  match goal with
  | |- context [yields ?a ?s ?kz ?ky] =>
      destruct (yields_transposes a s kz ky)
        as (M11 & M12 & M21 & M22 & -> & H11 & H22 & H21)
  end.
  exists M11, M12, M21, M22. unfold symmetric. auto.
Qed.

Lemma stiffness_local_block_symmetry_witness :
  valid_input 3 2 1 1 1 1 0 0 1 /\
  exists M11 M12 M21 M22 : matrix,
    stiffness_local 3 2 1 1 1 1 0 0 1 = Ok [M11; M12; M21; M22] /\
    symmetric M11 /\ symmetric M22 /\ M21 = transpose M12.
Proof.
  assert (Hvalid : valid_input 3 2 1 1 1 1 0 0 1)
    by (unfold valid_input; repeat split; lra).
  split; [exact Hvalid | ].
  exact (stiffness_local_block_symmetry 3 2 1 1 1 1 0 0 1 Hvalid).
Defined.

(** C5.  A zero [Ay] is replaced by [Ax] in everything computed after the
    test, and so is a zero [Az]; a non-zero [Ay] or [Az] is used as it
    is. *)
Theorem stiffness_local_defaulting (L E G Ax Iz Iy Ay Az J : R) :
  (Ay = 0 -> Az = 0 ->
   stiffness_local L E G Ax Iz Iy Ay Az J = stiffness_body L E G Ax Iz Iy Ax Ax J) /\
  (Ay = 0 -> Az <> 0 ->
   stiffness_local L E G Ax Iz Iy Ay Az J = stiffness_body L E G Ax Iz Iy Ax Az J) /\
  (Ay <> 0 -> Az = 0 ->
   stiffness_local L E G Ax Iz Iy Ay Az J = stiffness_body L E G Ax Iz Iy Ay Ax J) /\
  (Ay <> 0 -> Az <> 0 ->
   stiffness_local L E G Ax Iz Iy Ay Az J = stiffness_body L E G Ax Iz Iy Ay Az J) /\
  stiffness_local L E G Ax Iz Iy 0 Az J = stiffness_local L E G Ax Iz Iy Ax Az J /\
  stiffness_local L E G Ax Iz Iy Ay 0 J = stiffness_local L E G Ax Iz Iy Ay Ax J.
Proof.
  unfold stiffness_local.
  repeat split.
  - intros -> ->. now rewrite defaulted_zero.
  - intros -> HAz. now rewrite defaulted_zero, defaulted_nonzero.
  - intros HAy ->. now rewrite defaulted_zero, defaulted_nonzero.
  - intros HAy HAz. now rewrite !defaulted_nonzero.
  - rewrite <- (defaulted_idempotent Ax 0) at 1. now rewrite defaulted_zero.
  - rewrite <- (defaulted_idempotent Ax 0) at 1. now rewrite defaulted_zero.
Qed.

Lemma stiffness_local_defaulting_witness :
  stiffness_local 3 2 1 5 1 1 0 4 1 = stiffness_body 3 2 1 5 1 1 5 4 1.
Proof.
  apply (proj1 (proj2 (stiffness_local_defaulting 3 2 1 5 1 1 0 4 1))); lra.
Defined.

(** C3.  With [L > 0], [G > 0] and non-zero shear areas after defaulting,
    [stiffness_local] computes [phiY = 12 E Iz / (G Ay L^2)] when
    [Iz <> 0] and [0] otherwise, [phiZ] likewise from [Iy] and [Az],
    [a = E Ax / L], [s = G J / L], and the bending base terms as the
    quotients [kzPre = E Iz / ((phiY + 1) L^2)] and
    [kyPre = E Iy / ((phiZ + 1) L^2)]; the yielded blocks are built from
    these values. *)
Theorem stiffness_local_coefficients (L E G Ax Iz Iy Ay Az J : R) :
  0 < L -> 0 < G -> defaulted Ax Ay <> 0 -> defaulted Ax Az <> 0 ->
  let phiY := spec_phi Iz G (defaulted Ax Ay) L E in
  let phiZ := spec_phi Iy G (defaulted Ax Az) L E in
  shear_factor Iz G (defaulted Ax Ay) L E = Ok phiY /\
  shear_factor Iy G (defaulted Ax Az) L E = Ok phiZ /\
  bar_stiffness Ax L E = Ok (spec_bar E Ax L) /\
  bar_stiffness J L G = Ok (spec_bar G J L) /\
  k_pre Iz phiY L E = pdiv (E * Iz) ((phiY + 1) * L ^ 2) /\
  k_pre Iy phiZ L E = pdiv (E * Iy) ((phiZ + 1) * L ^ 2) /\
  stiffness_local L E G Ax Iz Iy Ay Az J =
    (let! kzPre := pdiv (E * Iz) ((phiY + 1) * L ^ 2) in
     let! kyPre := pdiv (E * Iy) ((phiZ + 1) * L ^ 2) in
     Ok (yields (spec_bar E Ax L) (spec_bar G J L)
                (kz_terms phiY kzPre L) (ky_terms phiZ kyPre L))) /\
  (phiY + 1 <> 0 -> phiZ + 1 <> 0 ->
   stiffness_local L E G Ax Iz Iy Ay Az J =
     Ok (yields (spec_bar E Ax L) (spec_bar G J L)
                (kz_terms phiY (spec_k_pre Iz phiY L E) L)
                (ky_terms phiZ (spec_k_pre Iy phiZ L E) L))).
Proof.
  intros HL HG HAy HAz phiY phiZ.
  assert (HL' : L <> 0) by lra. assert (HG' : G <> 0) by lra.
  split; [now apply shear_factor_spec | ].
  split; [now apply shear_factor_spec | ].
  split; [now apply bar_stiffness_spec | ].
  split; [now apply bar_stiffness_spec | ].
  split; [now apply k_pre_spec | ].
  split; [now apply k_pre_spec | ].
  split; [now apply stiffness_local_spec | ].
  intros HY HZ. now apply stiffness_local_value.
Qed.

Lemma stiffness_local_coefficients_witness :
  shear_factor 1 1 (defaulted 1 0) 3 2 = Ok (spec_phi 1 1 (defaulted 1 0) 3 2) /\
  bar_stiffness 1 3 2 = Ok (spec_bar 2 1 3).
Proof.
  assert (H1 : defaulted 1 0 <> 0) by (rewrite defaulted_zero; lra).
  pose proof (stiffness_local_coefficients 3 2 1 1 1 1 0 0 1
                ltac:(lra) ltac:(lra) H1 H1) as H.
  cbv zeta in H. split; [apply H | apply H].
Defined.

(** With [phiY = 0] and [phiZ = 0] the bending entries of the blocks are
    [12 E I / L^2], [6 E I / L], [4 E I] and [2 E I]: each is [L] times the
    Euler-Bernoulli coefficient, because [kzPre] and [kyPre] divide by
    [L] twice where the closed form divides three times. *)
Lemma bending_entries_without_shear (L E Iz Iy a s : R) :
  L <> 0 ->
  exists (kzPre kyPre : R) (M11 M12 M21 M22 : matrix),
    k_pre Iz 0 L E = Ok kzPre /\
    k_pre Iy 0 L E = Ok kyPre /\
    yields a s (kz_terms 0 kzPre L) (ky_terms 0 kyPre L)
      = [M11; M12; M21; M22] /\
    entry M11 1 1 = L * (12 * E * Iz / L ^ 3) /\
    entry M11 1 5 = L * (6 * E * Iz / L ^ 2) /\
    entry M11 5 5 = L * (4 * E * Iz / L) /\
    entry M12 5 5 = L * (2 * E * Iz / L) /\
    entry M11 2 2 = L * (12 * E * Iy / L ^ 3) /\
    entry M11 2 4 = L * - (6 * E * Iy / L ^ 2) /\
    entry M11 4 4 = L * (4 * E * Iy / L) /\
    entry M12 4 4 = L * (2 * E * Iy / L).
Proof.
  intros HL.
  assert (H1 : (0 + 1) * L ^ 2 <> 0).
  { apply Rmult_integral_contrapositive. split; [lra | now apply pow_nonzero]. }
  exists (E * Iz / ((0 + 1) * L ^ 2)), (E * Iy / ((0 + 1) * L ^ 2)).
  do 4 eexists.
  rewrite !k_pre_spec by assumption. rewrite !pdiv_ok by assumption.
  split; [reflexivity | ]. split; [reflexivity | ].
  split; [reflexivity | ].
  unfold entry, kz_terms, ky_terms.
  cbn [nth k11 k12 k13 k14 k22 k23 k24 k33 k34 k44].
  repeat split; field; assumption.
Qed.

(** C4, evaluated.  For a beam of length 2 with [E = Iz = 1] the
    Euler-Bernoulli coefficients are [12 E Iz / L^3 = 3/2],
    [6 E Iz / L^2 = 3/2], [4 E Iz / L = 2] and [2 E Iz / L = 1].  At
    [phiY = 0] lines 50-61 give 3, 3, 4 and 2; and the call with the large
    shear area [Ay = 3000000000], for which [phiY] is one billionth, yields
    a block whose translation entry exceeds 2. *)
Theorem euler_bernoulli_limit_scaled_by_length :
  (k_pre 1 0 2 1 = Ok (1 / 4) /\
   k11 (kz_terms 0 (1 / 4) 2) = 3 /\ 12 * 1 * 1 / 2 ^ 3 = 3 / 2 /\
   k12 (kz_terms 0 (1 / 4) 2) = 3 /\ 6 * 1 * 1 / 2 ^ 2 = 3 / 2 /\
   k22 (kz_terms 0 (1 / 4) 2) = 4 /\ 4 * 1 * 1 / 2 = 2 /\
   k24 (kz_terms 0 (1 / 4) 2) = 2 /\ 2 * 1 * 1 / 2 = 1) /\
  exists M11 M12 M21 M22 : matrix,
    stiffness_local 2 1 1 1 1 0 3000000000 0 0 = Ok [M11; M12; M21; M22] /\
    shear_factor 1 1 3000000000 2 1 = Ok (1 / 1000000000) /\
    entry M11 1 1 = 3000000000 / 1000000001 /\
    2 < entry M11 1 1.
Proof.
  split.
  - rewrite k_pre_spec by lra. rewrite pdiv_ok by lra.
    unfold kz_terms. cbn [k11 k12 k22 k24].
    repeat split; try lra. f_equal. lra.
  - assert (HAy : defaulted 1 3000000000 = 3000000000)
      by (apply defaulted_nonzero; lra).
    assert (HAz : defaulted 1 0 = 1) by apply defaulted_zero.
    assert (Hphi : spec_phi 1 1 3000000000 2 1 = 1 / 1000000000)
      by (rewrite spec_phi_nonzero by lra; lra).
    rewrite stiffness_local_value; rewrite ?HAy, ?HAz, ?Hphi, ?spec_phi_zero; try lra.
    rewrite shear_factor_spec by lra. rewrite Hphi.
    do 4 eexists. split; [reflexivity | ].
    unfold entry, kz_terms, spec_k_pre. cbn [nth k11].
    repeat split; lra.
Qed.

(** ** When [stiffness_local] raises *)

Lemma shear_factor_cases (I G A L E : R) :
  (I <> 0 /\ (G = 0 \/ A = 0 \/ L = 0) /\
   shear_factor I G A L E = Raise ZeroDivisionError) \/
  ((I = 0 \/ (G <> 0 /\ A <> 0 /\ L <> 0)) /\
   shear_factor I G A L E = Ok (spec_phi I G A L E)).
Proof.
  destruct (Req_dec_T I 0) as [-> | HI].
  { right. split; [now left | ]. now rewrite shear_factor_zero, spec_phi_zero. }
  destruct (Req_dec_T G 0) as [HG | HG].
  { left. repeat split; auto. unfold shear_factor.
    destruct (Req_dec_T I 0); [contradiction | ].
    now rewrite (pdiv_raise _ G HG). }
  destruct (Req_dec_T A 0) as [HA | HA].
  { left. repeat split; auto. unfold shear_factor.
    destruct (Req_dec_T I 0); [contradiction | ].
    rewrite (pdiv_ok _ G HG). cbn [bind]. now rewrite (pdiv_raise _ A HA). }
  destruct (Req_dec_T L 0) as [HL | HL].
  { left. repeat split; auto. unfold shear_factor.
    destruct (Req_dec_T I 0); [contradiction | ].
    rewrite (pdiv_ok _ G HG). cbn [bind].
    rewrite (pdiv_ok _ A HA). cbn [bind]. now rewrite (pdiv_raise _ L HL). }
  right. split; [right; auto | now apply shear_factor_spec].
Qed.

Lemma bar_stiffness_raise (X C : R) : bar_stiffness X 0 C = Raise ZeroDivisionError.
Proof. unfold bar_stiffness. now rewrite pdiv_raise. Qed.

(** The two outcomes of [stiffness_local]. *)
Lemma stiffness_local_outcome (L E G Ax Iz Iy Ay Az J : R) :
  let phiY := spec_phi Iz G (defaulted Ax Ay) L E in
  let phiZ := spec_phi Iy G (defaulted Ax Az) L E in
  (zero_divisor L E G Ax Iz Iy Ay Az /\
   stiffness_local L E G Ax Iz Iy Ay Az J = Raise ZeroDivisionError) \/
  (~ zero_divisor L E G Ax Iz Iy Ay Az /\
   stiffness_local L E G Ax Iz Iy Ay Az J =
     Ok (yields (spec_bar E Ax L) (spec_bar G J L)
                (kz_terms phiY (spec_k_pre Iz phiY L E) L)
                (ky_terms phiZ (spec_k_pre Iy phiZ L E) L))).
Proof.
  unfold zero_divisor, stiffness_local, stiffness_body. cbv zeta.
  set (Ay' := defaulted Ax Ay). set (Az' := defaulted Ax Az).
  destruct (shear_factor_cases Iz G Ay' L E)
    as [(HIz & HdY & ->) | (HdY & ->)]; cbn [bind].
  { left. split; [ | reflexivity]. tauto. }
  destruct (shear_factor_cases Iy G Az' L E)
    as [(HIy & HdZ & ->) | (HdZ & ->)]; cbn [bind].
  { left. split; [ | reflexivity]. tauto. }
  destruct (Req_dec_T L 0) as [HL | HL].
  { left. split; [now left | ]. rewrite HL at 1.
    now rewrite bar_stiffness_raise. }
  rewrite !bar_stiffness_spec by assumption. cbn [bind].
  rewrite !k_pre_spec by assumption.
  assert (Hsq : L ^ 2 <> 0) by now apply pow_nonzero.
  destruct (Req_dec_T (spec_phi Iz G Ay' L E + 1) 0) as [HY | HY].
  { left. split; [tauto | ].
    rewrite pdiv_raise; [reflexivity | rewrite HY; ring]. }
  rewrite pdiv_ok by (apply Rmult_integral_contrapositive; auto).
  cbn [bind].
  destruct (Req_dec_T (spec_phi Iy G Az' L E + 1) 0) as [HZ | HZ].
  { left. split; [tauto | ].
    rewrite pdiv_raise; [reflexivity | rewrite HZ; ring]. }
  rewrite pdiv_ok by (apply Rmult_integral_contrapositive; auto).
  cbn [bind].
  right. split; [tauto | reflexivity].
Qed.

(** C6, as the code has it.  [stiffness_local] checks no sign.  It raises
    [ZeroDivisionError], before any block is yielded, exactly when one of
    the divisors it meets is zero, and yields its four blocks on every
    other input. *)
Theorem stiffness_local_raises_iff (L E G Ax Iz Iy Ay Az J : R) :
  (zero_divisor L E G Ax Iz Iy Ay Az <->
   stiffness_local L E G Ax Iz Iy Ay Az J = Raise ZeroDivisionError) /\
  (~ zero_divisor L E G Ax Iz Iy Ay Az <->
   exists M11 M12 M21 M22 : matrix,
     stiffness_local L E G Ax Iz Iy Ay Az J = Ok [M11; M12; M21; M22]).
Proof.
  destruct (stiffness_local_outcome L E G Ax Iz Iy Ay Az J)
    as [(Hz & Hr) | (Hnz & Hok)].
  - split; split; try tauto.
    intros (M11 & M12 & M21 & M22 & Hok). rewrite Hr in Hok. discriminate.
  - split; split; try tauto.
    + intros Hr. rewrite Hok in Hr. discriminate.
    + intros _. rewrite Hok.
      match goal with
      | |- context [yields ?a ?s ?kz ?ky] =>
          destruct (yields_transposes a s kz ky)
            as (M11 & M12 & M21 & M22 & -> & _)
      end.
      exists M11, M12, M21, M22. reflexivity.
Qed.

Lemma stiffness_local_raises_iff_witness :
  stiffness_local 0 1 1 1 0 0 0 0 0 = Raise ZeroDivisionError.
Proof.
  apply (proj1 (stiffness_local_raises_iff 0 1 1 1 0 0 0 0 0)).
  unfold zero_divisor. left. reflexivity.
Defined.

(** C6 refuted.  A negative length and a negative moment of inertia are
    accepted: the call returns blocks computed from them. *)
Lemma stiffness_local_accepts_negative :
  stiffness_local (-1) 1 1 1 0 0 0 0 0
    = Ok (yields (-1) 0 (kz_terms 0 0 (-1)) (ky_terms 0 0 (-1))) /\
  stiffness_local 1 1 1 1 (-1) 0 0 0 0
    = Ok (yields 1 0 (kz_terms (-12) (1 / 11) 1) (ky_terms 0 0 1)).
Proof.
  assert (HA : defaulted 1 0 = 1) by apply defaulted_zero.
  split.
  - rewrite stiffness_local_value; rewrite ?HA, ?spec_phi_zero; try lra.
    unfold spec_bar, spec_k_pre, yields, kz_terms, ky_terms.
    cbn [k11 k12 k13 k14 k22 k23 k24 k33 k34 k44].
    f_equal. entrywise ltac:(try reflexivity; lra).
  - assert (Hphi : spec_phi (-1) 1 1 1 1 = -12)
      by (rewrite spec_phi_nonzero by lra; lra).
    rewrite stiffness_local_value; rewrite ?HA, ?Hphi, ?spec_phi_zero; try lra.
    unfold spec_bar, spec_k_pre, yields, kz_terms, ky_terms.
    cbn [k11 k12 k13 k14 k22 k23 k24 k33 k34 k44].
    f_equal. entrywise ltac:(try reflexivity; lra).
Qed.

(** ** The assembled matrix in global axes *)

Lemma norm_nonneg (x y z : R) : 0 <= norm x y z.
Proof. unfold norm. apply sqrt_pos. Qed.

Lemma norm_zero (x y z : R) : norm x y z = 0 -> (x, y, z) = (0, 0, 0).
Proof.
  unfold norm. intros H. apply sqrt_eq_0 in H; [ | nra].
  assert (x = 0) by nra. assert (y = 0) by nra. assert (z = 0) by nra.
  congruence.
Qed.

Lemma norm_pos (x y z : R) : (x, y, z) <> (0, 0, 0) -> 0 < norm x y z.
Proof.
  intros Hne. destruct (norm_nonneg x y z) as [Hlt | Heq]; [assumption | ].
  exfalso. apply Hne. apply norm_zero. symmetry. assumption.
Qed.

Lemma norm_origin : norm 0 0 0 = 0.
Proof.
  unfold norm. replace (0 * 0 + 0 * 0 + 0 * 0) with 0 by ring. apply sqrt_0.
Qed.

Lemma length_twelve (v : list R) :
  length v = 12%nat ->
  exists v1 v2 v3 v4 v5 v6 v7 v8 v9 v10 v11 v12 : R,
    v = [v1; v2; v3; v4; v5; v6; v7; v8; v9; v10; v11; v12].
Proof.
  intros H.
  do 12 (destruct v as [ | ? v]; [discriminate H | ]).
  destruct v; [ | discriminate H].
  do 12 eexists. reflexivity.
Qed.

(** The quadratic form of the local matrix as a sum of squares. *)
Lemma local_quadratic_form (a s phiY kzPre phiZ kyPre L : R)
  (w1 w2 w3 w4 w5 w6 w7 w8 w9 w10 w11 w12 : R) :
  forall M11 M12 M21 M22 : matrix,
  yields a s (kz_terms phiY kzPre L) (ky_terms phiZ kyPre L)
    = [M11; M12; M21; M22] ->
  quad [w1; w2; w3; w4; w5; w6; w7; w8; w9; w10; w11; w12]
       (assemble M11 M12 M21 M22) =
  a * (w1 - w7) ^ 2 + s * (w4 - w10) ^ 2 +
  kzPre * (3 * (2 * (w2 - w8) + L * (w6 + w12)) ^ 2
           + (1 + phiY) * (L * (w6 - w12)) ^ 2) +
  kyPre * (3 * (2 * (w3 - w9) - L * (w5 + w11)) ^ 2
           + (1 + phiZ) * (L * (w5 - w11)) ^ 2).
Proof.
  intros M11 M12 M21 M22 HM. injection HM as <- <- <- <-.
  unfold_matrices. ring.
Qed.

Lemma sum_of_squares_nonneg (a s phiY kzPre phiZ kyPre p q u v b c : R) :
  0 <= a -> 0 <= s -> 0 <= kzPre -> 0 <= kyPre -> 0 <= phiY -> 0 <= phiZ ->
  0 <= a * p ^ 2 + s * q ^ 2 +
       kzPre * (3 * u ^ 2 + (1 + phiY) * v ^ 2) +
       kyPre * (3 * b ^ 2 + (1 + phiZ) * c ^ 2).
Proof.
  intros Ha Hs Hkz Hky HY HZ.
  pose proof (pow2_ge_0 p). pose proof (pow2_ge_0 q).
  pose proof (pow2_ge_0 u). pose proof (pow2_ge_0 v).
  pose proof (pow2_ge_0 b). pose proof (pow2_ge_0 c).
  repeat apply Rplus_le_le_0_compat; apply Rmult_le_pos; try assumption.
  - apply Rplus_le_le_0_compat; [lra | apply Rmult_le_pos; lra].
  - apply Rplus_le_le_0_compat; [lra | apply Rmult_le_pos; lra].
Qed.

(** Transforming the four blocks by [t . m . r] transforms the quadratic
    form by the change of variables [w = r . v]. *)
Lemma quad_congruence (T : mat3) (a s : R) (kz ky : bending)
  (v1 v2 v3 v4 v5 v6 v7 v8 v9 v10 v11 v12 : R) :
  let t := block_diag (rows T) (rows T) in
  let r := transpose t in
  forall G11 G12 G21 G22 M11 M12 M21 M22 : matrix,
  yields a s kz ky = [M11; M12; M21; M22] ->
  map (fun m => dot (dot t m) r) (yields a s kz ky) = [G11; G12; G21; G22] ->
  quad [v1; v2; v3; v4; v5; v6; v7; v8; v9; v10; v11; v12]
       (assemble G11 G12 G21 G22) =
  quad (map (vdot [v1; v2; v3; v4; v5; v6]) r ++
        map (vdot [v7; v8; v9; v10; v11; v12]) r)
       (assemble M11 M12 M21 M22).
Proof.
  destruct T as [[[[a1 a2] a3] [[b1 b2] b3]] [[c1 c2] c3]].
  intros t r G11 G12 G21 G22 M11 M12 M21 M22 HM HG.
  subst t r. destruct kz, ky.
  injection HG as <- <- <- <-. injection HM as <- <- <- <-.
  unfold_matrices. ring.
Qed.

(** Symmetry survives the transformation, block by block. *)
Lemma assemble_global_symmetric (T : mat3) (a s : R) (kz ky : bending) :
  let t := block_diag (rows T) (rows T) in
  let r := transpose t in
  forall G11 G12 G21 G22 : matrix,
  map (fun m => dot (dot t m) r) (yields a s kz ky) = [G11; G12; G21; G22] ->
  symmetric (assemble G11 G12 G21 G22).
Proof.
  destruct T as [[[[a1 a2] a3] [[b1 b2] b3]] [[c1 c2] c3]].
  intros t r G11 G12 G21 G22 HG. subst t r. destruct kz, ky.
  injection HG as <- <- <- <-.
  unfold symmetric. unfold_matrices.
  entrywise ltac:(ring).
Qed.

(** In local axes already, the assembled matrix is symmetric and its
    quadratic form is non-negative. *)
Lemma local_matrix_symmetric_psd (a s phiY kzPre phiZ kyPre L : R) :
  0 <= a -> 0 <= s -> 0 <= kzPre -> 0 <= kyPre -> 0 <= phiY -> 0 <= phiZ ->
  exists M11 M12 M21 M22 : matrix,
    yields a s (kz_terms phiY kzPre L) (ky_terms phiZ kyPre L)
      = [M11; M12; M21; M22] /\
    symmetric (assemble M11 M12 M21 M22) /\
    positive_semidefinite (assemble M11 M12 M21 M22).
Proof.
  intros Ha Hs Hkz Hky HY HZ. do 4 eexists.
  split; [reflexivity | ]. split; [reflexivity | ].
  intros v Hlen.
  destruct (length_twelve v Hlen)
    as (w1 & w2 & w3 & w4 & w5 & w6 & w7 & w8 & w9 & w10 & w11 & w12 & ->).
  rewrite (local_quadratic_form a s phiY kzPre phiZ kyPre L
             _ _ _ _ _ _ _ _ _ _ _ _ _ _ _ _ eq_refl).
  apply sum_of_squares_nonneg; assumption.
Qed.

Lemma quotient_nonneg (p q : R) : 0 <= p -> 0 < q -> 0 <= p / q.
Proof.
  intros Hp Hq. unfold Rdiv. apply Rmult_le_pos; [assumption | ].
  left. apply Rinv_0_lt_compat. assumption.
Qed.

Lemma defaulted_nonneg (Ax A : R) : 0 <= Ax -> 0 <= A -> 0 <= defaulted Ax A.
Proof. intros HAx HA. unfold defaulted. destruct (Req_dec_T A 0); lra. Qed.

Lemma spec_phi_usable_nonneg (I G A L E : R) :
  0 <= I -> 0 < G -> 0 <= A -> 0 < L -> 0 <= E -> shear_area_usable I A ->
  0 <= spec_phi I G A L E.
Proof.
  intros HI HG HA HL HE [-> | HA'].
  - rewrite spec_phi_zero. lra.
  - apply spec_phi_nonneg; lra.
Qed.

Section GlobalStiffness.

Variable direction_cosines : R -> R -> R -> R -> mat3.

(** The value of [stiffness_global] on the inputs on which no divisor is
    zero. *)
Lemma stiffness_global_value (x y z E G Ax Iz Iy Ay Az theta J : R) :
  physically_valid x y z E G Ax Iz Iy Ay Az J ->
  shear_area_usable Iz (defaulted Ax Ay) ->
  shear_area_usable Iy (defaulted Ax Az) ->
  exists a s phiY kzPre phiZ kyPre : R,
    0 <= a /\ 0 <= s /\ 0 <= phiY /\ 0 <= kzPre /\ 0 <= phiZ /\ 0 <= kyPre /\
    let t := block_diag (rows (direction_cosines x y z theta))
                        (rows (direction_cosines x y z theta)) in
    stiffness_global direction_cosines x y z E G Ax Iz Iy Ay Az theta J =
      Ok (map (fun m => dot (dot t m) (transpose t))
              (yields a s (kz_terms phiY kzPre (norm x y z))
                          (ky_terms phiZ kyPre (norm x y z)))).
Proof.
  intros (HE & HG & Hdir & HAx & HIz & HIy & HAy & HAz & HJ) HuY HuZ.
  pose proof (norm_pos x y z Hdir) as HL.
  pose proof (defaulted_nonneg Ax Ay HAx HAy) as HAy'.
  pose proof (defaulted_nonneg Ax Az HAx HAz) as HAz'.
  assert (HphiY : 0 <= spec_phi Iz G (defaulted Ax Ay) (norm x y z) E)
    by (apply spec_phi_usable_nonneg; auto; lra).
  assert (HphiZ : 0 <= spec_phi Iy G (defaulted Ax Az) (norm x y z) E)
    by (apply spec_phi_usable_nonneg; auto; lra).
  assert (Hsq : 0 < norm x y z ^ 2) by (apply pow_lt; assumption).
  exists (spec_bar E Ax (norm x y z)), (spec_bar G J (norm x y z)),
         (spec_phi Iz G (defaulted Ax Ay) (norm x y z) E),
         (spec_k_pre Iz (spec_phi Iz G (defaulted Ax Ay) (norm x y z) E)
            (norm x y z) E),
         (spec_phi Iy G (defaulted Ax Az) (norm x y z) E),
         (spec_k_pre Iy (spec_phi Iy G (defaulted Ax Az) (norm x y z) E)
            (norm x y z) E).
  split; [apply quotient_nonneg; [apply Rmult_le_pos; lra | assumption] | ].
  split; [apply quotient_nonneg; [apply Rmult_le_pos; lra | assumption] | ].
  split; [assumption | ].
  split.
  { apply quotient_nonneg; [apply Rmult_le_pos; lra | ].
    apply Rmult_lt_0_compat; [lra | assumption]. }
  split; [assumption | ].
  split.
  { apply quotient_nonneg; [apply Rmult_le_pos; lra | ].
    apply Rmult_lt_0_compat; [lra | assumption]. }
  cbv zeta. unfold stiffness_global, transformMatrix.
  destruct (Req_dec_T (norm x y z) 0) as [Hz | _]; [lra | ]. cbn [bind].
  destruct (stiffness_local_outcome (norm x y z) E G Ax Iz Iy Ay Az J)
    as [(Hzero & _) | (_ & ->)]; [ | reflexivity].
  exfalso. unfold zero_divisor in Hzero. cbv zeta in Hzero.
  unfold shear_area_usable in HuY, HuZ.
  destruct Hzero as [H | [H | [H | [H | H]]]]; [lra | | | lra | lra].
  - destruct H as (HI & [HG0 | HA0]); [lra | tauto].
  - destruct H as (HI & [HG0 | HA0]); [lra | tauto].
Qed.

Lemma global_blocks_length (T : mat3) (a s : R) (kz ky : bending) :
  let t := block_diag (rows T) (rows T) in
  forall G11 G12 G21 G22 : matrix,
  map (fun m => dot (dot t m) (transpose t)) (yields a s kz ky)
    = [G11; G12; G21; G22] ->
  length (assemble G11 G12 G21 G22) = 12%nat.
Proof.
  destruct T as [[[[a1 a2] a3] [[b1 b2] b3]] [[c1 c2] c3]].
  intros t G11 G12 G21 G22 HG. subst t.
  injection HG as <- <- <- <-. reflexivity.
Qed.

(** C1, as the code has it.  On a physically valid input on which, in
    each bending plane with a non-zero moment of inertia, the shear area
    after defaulting is non-zero (as it is whenever [Ax > 0]),
    [stiffness_global] yields four blocks, and the 12x12 matrix assembled
    from them is symmetric and positive-semidefinite. *)
Theorem stiffness_global_symmetric_psd (x y z E G Ax Iz Iy Ay Az theta J : R) :
  physically_valid x y z E G Ax Iz Iy Ay Az J ->
  shear_area_usable Iz (defaulted Ax Ay) ->
  shear_area_usable Iy (defaulted Ax Az) ->
  exists G11 G12 G21 G22 : matrix,
    stiffness_global direction_cosines x y z E G Ax Iz Iy Ay Az theta J
      = Ok [G11; G12; G21; G22] /\
    symmetric (assemble G11 G12 G21 G22) /\
    positive_semidefinite (assemble G11 G12 G21 G22).
Proof.
  intros Hvalid HuY HuZ.
  destruct (stiffness_global_value x y z E G Ax Iz Iy Ay Az theta J
              Hvalid HuY HuZ)
    as (a & s & phiY & kzPre & phiZ & kyPre
        & Ha & Hs & HphiY & Hkz & HphiZ & Hky & Hval).
  cbv zeta in Hval. rewrite Hval.
  set (L := norm x y z) in *.
  set (T := direction_cosines x y z theta) in *.
  destruct (yields_transposes a s (kz_terms phiY kzPre L)
              (ky_terms phiZ kyPre L))
    as (M11 & M12 & M21 & M22 & HM & _).
  set (t := block_diag (rows T) (rows T)).
  assert (HG : map (fun m => dot (dot t m) (transpose t))
                 (yields a s (kz_terms phiY kzPre L) (ky_terms phiZ kyPre L))
               = [dot (dot t M11) (transpose t); dot (dot t M12) (transpose t);
                  dot (dot t M21) (transpose t); dot (dot t M22) (transpose t)])
    by (rewrite HM; reflexivity).
  rewrite HG. do 4 eexists. split; [reflexivity | ]. split.
  - exact (assemble_global_symmetric T a s _ _ _ _ _ _ HG).
  - intros v Hlen.
    rewrite (global_blocks_length T a s _ _ _ _ _ _ HG) in Hlen.
    destruct (length_twelve v Hlen)
      as (v1 & v2 & v3 & v4 & v5 & v6 & v7 & v8 & v9 & v10 & v11 & v12 & ->).
    rewrite (quad_congruence T a s _ _ v1 v2 v3 v4 v5 v6 v7 v8 v9 v10 v11 v12
               _ _ _ _ _ _ _ _ HM HG).
    subst t. destruct T as [[[[a1 a2] a3] [[b1 b2] b3]] [[c1 c2] c3]].
    cbv beta iota zeta delta
      [transpose column ncols block_diag rows
       map seq nth hd length app repeat Nat.add].
    rewrite (local_quadratic_form a s phiY kzPre phiZ kyPre L
               _ _ _ _ _ _ _ _ _ _ _ _ _ _ _ _ HM).
    apply sum_of_squares_nonneg; assumption.
Qed.

End GlobalStiffness.

Lemma stiffness_global_symmetric_psd_witness :
  exists G11 G12 G21 G22 : matrix,
    stiffness_global identity_cosines 3 0 0 2 1 1 1 1 0 0 0 1
      = Ok [G11; G12; G21; G22] /\
    symmetric (assemble G11 G12 G21 G22) /\
    positive_semidefinite (assemble G11 G12 G21 G22).
Proof.
  apply (stiffness_global_symmetric_psd identity_cosines 3 0 0 2 1 1 1 1 0 0 0 1).
  - unfold physically_valid. repeat split; try lra.
    intros H. injection H as H. lra.
  - right. rewrite defaulted_zero. lra.
  - right. rewrite defaulted_zero. lra.
Defined.

(** C1 refuted.  The direction [(1, 0, 0)] with [E = G = 1], [Iz = 1] and
    every other coefficient zero is physically valid in the sense of the
    claim, but the defaulted [Ay] is the zero [Ax]: the call raises and
    there is no matrix to be symmetric or positive-semidefinite. *)
Lemma stiffness_global_zero_area_raises :
  physically_valid 1 0 0 1 1 0 1 0 0 0 0 /\
  stiffness_global identity_cosines 1 0 0 1 1 0 1 0 0 0 0 0
    = Raise ZeroDivisionError /\
  ~ exists G11 G12 G21 G22 : matrix,
      stiffness_global identity_cosines 1 0 0 1 1 0 1 0 0 0 0 0
        = Ok [G11; G12; G21; G22] /\
      symmetric (assemble G11 G12 G21 G22) /\
      positive_semidefinite (assemble G11 G12 G21 G22).
Proof.
  assert (Hdir : (1, 0, 0) <> (0, 0, 0)) by (intros H; injection H as H; lra).
  assert (Hraise : stiffness_global identity_cosines 1 0 0 1 1 0 1 0 0 0 0 0
                   = Raise ZeroDivisionError).
  { unfold stiffness_global, transformMatrix.
    pose proof (norm_pos 1 0 0 Hdir) as HL.
    destruct (Req_dec_T (norm 1 0 0) 0) as [Hz | _]; [lra | ]. cbn [bind].
    destruct (stiffness_local_outcome (norm 1 0 0) 1 1 0 1 0 0 0 0)
      as [(_ & ->) | (Hnz & _)]; [reflexivity | ].
    exfalso. apply Hnz. unfold zero_divisor. cbv zeta.
    right. left. split; [lra | ]. right. apply defaulted_zero. }
  split; [unfold physically_valid; repeat split; solve [lra | exact Hdir] | ].
  split; [exact Hraise | ].
  intros (G11 & G12 & G21 & G22 & Hok & _). rewrite Hraise in Hok. discriminate.
Qed.

(** C7.  For the zero direction vector [stiffness_global] raises the
    invalid-geometry error of [transformMatrix], whatever the other
    arguments are, and yields no matrix. *)
Theorem stiffness_global_zero_direction
  (direction_cosines : R -> R -> R -> R -> mat3)
  (E G Ax Iz Iy Ay Az theta J : R) :
  stiffness_global direction_cosines 0 0 0 E G Ax Iz Iy Ay Az theta J
    = Raise InvalidGeometry /\
  ~ exists ms : list matrix,
      stiffness_global direction_cosines 0 0 0 E G Ax Iz Iy Ay Az theta J = Ok ms.
Proof.
  assert (Hraise :
    stiffness_global direction_cosines 0 0 0 E G Ax Iz Iy Ay Az theta J
      = Raise InvalidGeometry).
  { unfold stiffness_global, transformMatrix. rewrite norm_origin.
    destruct (Req_dec_T 0 0) as [_ | Hne]; [reflexivity | now contradict Hne]. }
  split; [exact Hraise | ].
  intros (ms & Hok). rewrite Hraise in Hok. discriminate.
Qed.

(** ** The dispatch of section.py *)

Lemma convert_leaves_popped (d : gmap string value) :
  snd (convert d) = delete "shape" d.
Proof.
  unfold convert. destruct (d !! "shape") as [shape | ] eqn:Hshape.
  - reflexivity.
  - cbn [snd]. symmetry. apply delete_id. exact Hshape.
Qed.

Lemma convert_unrecognized (d : gmap string value) (shape : value) :
  d !! "shape" = Some shape -> recognized shape = false ->
  fst (convert d) = Ok PyNone.
Proof.
  intros Hshape Htag. unfold convert. rewrite Hshape. cbn [fst].
  unfold recognized in Htag.
  repeat (apply orb_false_elim in Htag; destruct Htag as [Htag ?]).
  repeat match goal with H : is_tag shape _ = false |- _ => rewrite H; clear H end.
  reflexivity.
Qed.

Lemma convert_keeps_other_keys (d : gmap string value) (key : string) :
  key <> "shape" -> snd (convert d) !! key = d !! key.
Proof.
  intros Hkey. rewrite convert_leaves_popped. apply lookup_delete_ne. congruence.
Qed.

(** The dictionary that [properties] builds for the call ends without
    ['shape'] again; it is never the caller's. *)
Lemma properties_scratch_dictionary (shape : value) (kwargs : gmap string value) :
  kwargs !! "shape" = None -> snd (properties shape kwargs) = kwargs.
Proof.
  intros Hfresh. unfold properties. rewrite convert_leaves_popped.
  apply delete_insert_id. exact Hfresh.
Qed.

(** C8, as the code has it.  When the value of ['shape'] is none of the
    tags H, T, I, O, C, R, [convert] raises nothing and returns [None];
    and so does [properties]. *)
Theorem convert_unknown_shape_returns_none
  (section_parameters : gmap string value) (shape : value) :
  recognized shape = false ->
  (section_parameters !! "shape" = Some shape ->
   fst (convert section_parameters) = Ok PyNone) /\
  fst (properties shape section_parameters) = Ok PyNone.
Proof.
  intros Htag. split.
  - intros Hshape. exact (convert_unrecognized _ shape Hshape Htag).
  - unfold properties. apply (convert_unrecognized _ shape); [ | exact Htag].
    apply lookup_insert_eq.
Qed.

Lemma convert_unknown_shape_returns_none_witness :
  fst (properties (Str "X") (<["D" := Num 2]> ∅)) = Ok PyNone.
Proof.
  apply (convert_unknown_shape_returns_none (<["D" := Num 2]> ∅) (Str "X")).
  reflexivity.
Defined.

(** C8 refuted.  The tag ['X'] is not recognized and no error is
    signalled: the result is [None]. *)
Lemma convert_unknown_shape_no_error :
  recognized (Str "X") = false /\
  fst (convert (<["shape" := Str "X"]> (<["D" := Num 2]> ∅))) = Ok PyNone /\
  ~ exists e : exn,
      fst (convert (<["shape" := Str "X"]> (<["D" := Num 2]> ∅))) = Raise e.
Proof.
  assert (Hconv : fst (convert (<["shape" := Str "X"]> (<["D" := Num 2]> ∅)))
                  = Ok PyNone).
  { apply (convert_unrecognized _ (Str "X")); [ | reflexivity].
    apply lookup_insert_eq. }
  split; [reflexivity | ]. split; [exact Hconv | ].
  rewrite Hconv. intros (e & He). discriminate.
Qed.

Lemma o_solid_circle :
  exists coefficients : gmap string R, o 2 0 = Ok coefficients.
Proof.
  pose proof PI_RGT_0 as Hpi.
  unfold o. destruct (Req_dec_T 0 0) as [_ | Hne]; [ | now contradict Hne].
  cbn [fst snd].
  rewrite pdiv_ok by lra. cbn [bind].
  rewrite pdiv_ok by lra. cbn [bind].
  unfold psqrt.
  destruct (Rlt_dec (0.015625 * 2 ^ 4 * PI / (0.25 * 2 ^ 2 * PI)) 0) as [Hneg | _].
  - exfalso. apply (Rlt_not_le _ _ Hneg).
    apply quotient_nonneg; lra.
  - cbn [bind]. eexists. reflexivity.
Qed.

(** C9, evaluated.  After [convert] has run on the dictionary
    [{'shape': 'O', 'D': 2.0}], and returned the coefficients of the
    circle, that dictionary is [{'D': 2.0}]: the key ['shape'] is gone.
    [convert] removes ['shape'] from every dictionary that has it. *)
Theorem convert_removes_shape :
  let d : gmap string value := <["shape" := Str "O"]> (<["D" := Num 2]> ∅) in
  d !! "shape" = Some (Str "O") /\
  (exists coefficients : gmap string R,
     fst (convert d) = Ok (Coefficients coefficients)) /\
  snd (convert d) = <["D" := Num 2]> ∅ /\
  snd (convert d) !! "shape" = None /\
  snd (convert d) <> d /\
  forall section_parameters : gmap string value,
    is_Some (section_parameters !! "shape") ->
    snd (convert section_parameters) !! "shape" = None /\
    snd (convert section_parameters) <> section_parameters.
Proof.
  intros d.
  assert (Hshape : d !! "shape" = Some (Str "O")) by apply lookup_insert_eq.
  assert (Hrest : delete "shape" d = <["D" := Num 2]> ∅).
  { unfold d. rewrite delete_insert_id; [reflexivity | ].
    rewrite lookup_insert_ne by discriminate. apply lookup_empty. }
  assert (Hgeneral : forall m : gmap string value,
            is_Some (m !! "shape") ->
            snd (convert m) !! "shape" = None /\ snd (convert m) <> m).
  { intros m [v Hv]. rewrite convert_leaves_popped. split.
    - apply lookup_delete_eq.
    - intros Heq. apply (f_equal (fun m' => m' !! "shape")) in Heq.
      rewrite lookup_delete_eq, Hv in Heq. discriminate. }
  assert (Hd : is_Some (d !! "shape")) by (rewrite Hshape; eauto).
  split; [exact Hshape | ]. split.
  - unfold convert. rewrite Hshape, Hrest. cbn [fst is_tag String.eqb].
    cbn. unfold call_o, accepts.
    destruct (decide _) as [_ | Hn].
    2: { exfalso. apply Hn. intros k Hk. apply elem_of_dom in Hk as [v Hv].
         apply lookup_insert_Some in Hv as [[<- _] | [_ Hv]].
         - apply elem_of_list_to_set. left.
         - rewrite lookup_empty in Hv. discriminate. }
    cbn [bind]. unfold required, optional.
    rewrite lookup_insert_eq. cbn [bind].
    rewrite lookup_insert_ne by discriminate. rewrite lookup_empty. cbn [bind].
    destruct o_solid_circle as [coefficients ->]. cbn [bind].
    eexists. reflexivity.
  - split; [rewrite convert_leaves_popped; exact Hrest | ].
    split; [exact (proj1 (Hgeneral d Hd)) | ].
    split; [exact (proj2 (Hgeneral d Hd)) | exact Hgeneral].
Qed.


(** ** Further properties of line.py *)

(** Whatever [stiffness_local] yields has the form of lines 52-103 for
    some coefficients. *)
Lemma stiffness_local_yields_form (L E G Ax Iz Iy Ay Az J : R) (ms : list matrix) :
  stiffness_local L E G Ax Iz Iy Ay Az J = Ok ms ->
  L <> 0 /\
  exists a s phiY kzPre phiZ kyPre : R,
    ms = yields a s (kz_terms phiY kzPre L) (ky_terms phiZ kyPre L).
Proof.
  intros Hok.
  destruct (stiffness_local_outcome L E G Ax Iz Iy Ay Az J)
    as [(_ & Hr) | (Hnz & Hval)].
  - rewrite Hr in Hok. discriminate.
  - split.
    + intros HL. apply Hnz. left. exact HL.
    + rewrite Hval in Hok. injection Hok as <-. do 6 eexists. reflexivity.
Qed.

(** A call on which nothing is zero, for use at concrete inputs. *)
Lemma stiffness_local_sample :
  exists ms : list matrix, stiffness_local 3 2 1 1 1 1 0 0 1 = Ok ms.
Proof.
  destruct (stiffness_local_outcome 3 2 1 1 1 1 0 0 1)
    as [(Hz & _) | (_ & ->)]; [ | eexists; reflexivity].
  exfalso. unfold zero_divisor in Hz. cbv zeta in Hz.
  rewrite !defaulted_zero in Hz. rewrite !spec_phi_nonzero in Hz by lra.
  destruct Hz as [H | [H | [H | [H | H]]]]; lra.
Qed.

(** X1.  With [Iz = Iy = 0] and a non-zero length, [stiffness_local] is a
    bar: it raises nothing, whatever [G], [Ay] and [Az] are (zero
    included), and its blocks hold the axial term [Ax / L * E] and the
    torsional term [J / L * G] only. *)
Theorem stiffness_local_bar (L E G Ax Ay Az J : R) :
  L <> 0 ->
  stiffness_local L E G Ax 0 0 Ay Az J =
    Ok [ axial_torsion_block (Ax / L * E) (J / L * G);
         axial_torsion_block (- (Ax / L * E)) (- (J / L * G));
         axial_torsion_block (- (Ax / L * E)) (- (J / L * G));
         axial_torsion_block (Ax / L * E) (J / L * G) ].
Proof.
  intros HL.
  destruct (stiffness_local_outcome L E G Ax 0 0 Ay Az J)
    as [(Hz & _) | (_ & ->)].
  - exfalso. unfold zero_divisor in Hz. cbv zeta in Hz.
    rewrite !spec_phi_zero in Hz.
    destruct Hz as [H | [H | [H | [H | H]]]]; try lra; tauto.
  - rewrite !spec_phi_zero. unfold spec_bar, spec_k_pre.
    unfold_operations. f_equal.
    entrywise ltac:(try reflexivity; field; assumption).
Qed.

Lemma stiffness_local_bar_witness :
  stiffness_local 2 3 0 5 0 0 0 0 7 =
    Ok [ axial_torsion_block (5 / 2 * 3) (7 / 2 * 0);
         axial_torsion_block (- (5 / 2 * 3)) (- (7 / 2 * 0));
         axial_torsion_block (- (5 / 2 * 3)) (- (7 / 2 * 0));
         axial_torsion_block (5 / 2 * 3) (7 / 2 * 0) ].
Proof.
  apply (stiffness_local_bar 2 3 0 5 0 0 7). lra.
Defined.

(** X2.  Rigid-body motions produce no force: whenever [stiffness_local]
    yields its blocks, the assembled 12x12 matrix maps each of the six
    rigid-body motions of the beam to the zero vector. *)
Theorem stiffness_local_rigid_body (L E G Ax Iz Iy Ay Az J : R)
  (M11 M12 M21 M22 : matrix) :
  stiffness_local L E G Ax Iz Iy Ay Az J = Ok [M11; M12; M21; M22] ->
  Forall (fun motion => matvec (assemble M11 M12 M21 M22) motion = repeat 0 12)
         (rigid_body_motions L).
Proof.
  intros Hok.
  destruct (stiffness_local_yields_form _ _ _ _ _ _ _ _ _ _ Hok)
    as (_ & a & s & phiY & kzPre & phiZ & kyPre & Hform).
  injection Hform as -> -> -> ->.
  unfold rigid_body_motions.
  repeat (apply Forall_cons; split;
          [unfold_operations; entrywise ltac:(ring) | ]).
  apply Forall_nil. exact I.
Qed.

Lemma stiffness_local_rigid_body_witness :
  exists M11 M12 M21 M22 : matrix,
    stiffness_local 3 2 1 1 1 1 0 0 1 = Ok [M11; M12; M21; M22] /\
    Forall (fun motion => matvec (assemble M11 M12 M21 M22) motion = repeat 0 12)
           (rigid_body_motions 3).
Proof.
  destruct stiffness_local_sample as [ms Hok].
  destruct (stiffness_local_yields_form _ _ _ _ _ _ _ _ _ _ Hok)
    as (_ & a & s & phiY & kzPre & phiZ & kyPre & Hform).
  unfold yields in Hform. subst ms.
  do 4 eexists. split; [exact Hok | ].
  exact (stiffness_local_rigid_body 3 2 1 1 1 1 0 0 1 _ _ _ _ Hok).
Defined.

(** X3.  On a valid input the 12x12 matrix assembled from the four local
    blocks is symmetric and positive-semidefinite. *)
Theorem stiffness_local_symmetric_psd (L E G Ax Iz Iy Ay Az J : R) :
  valid_input L E G Ax Iz Iy Ay Az J ->
  exists M11 M12 M21 M22 : matrix,
    stiffness_local L E G Ax Iz Iy Ay Az J = Ok [M11; M12; M21; M22] /\
    symmetric (assemble M11 M12 M21 M22) /\
    positive_semidefinite (assemble M11 M12 M21 M22).
Proof.
  intros Hvalid.
  destruct (valid_input_divisors _ _ _ _ _ _ _ _ _ Hvalid)
    as (HL & HG & HAy & HAz & HphiY & HphiZ).
  destruct Hvalid as (HL' & HE & HG' & HAx & HIz & HIy & _ & _ & HJ).
  rewrite stiffness_local_value by lra.
  assert (Hsq : 0 < L ^ 2) by (apply pow_lt; assumption).
  destruct (local_matrix_symmetric_psd
              (spec_bar E Ax L) (spec_bar G J L)
              (spec_phi Iz G (defaulted Ax Ay) L E)
              (spec_k_pre Iz (spec_phi Iz G (defaulted Ax Ay) L E) L E)
              (spec_phi Iy G (defaulted Ax Az) L E)
              (spec_k_pre Iy (spec_phi Iy G (defaulted Ax Az) L E) L E) L)
    as (M11 & M12 & M21 & M22 & -> & Hsym & Hpsd); try assumption.
  - apply quotient_nonneg; [apply Rmult_le_pos; lra | assumption].
  - apply quotient_nonneg; [apply Rmult_le_pos; lra | assumption].
  - apply quotient_nonneg; [apply Rmult_le_pos; lra | ].
    apply Rmult_lt_0_compat; [lra | assumption].
  - apply quotient_nonneg; [apply Rmult_le_pos; lra | ].
    apply Rmult_lt_0_compat; [lra | assumption].
  - exists M11, M12, M21, M22. auto.
Qed.

Lemma stiffness_local_symmetric_psd_witness :
  valid_input 3 2 1 1 1 1 0 0 1 /\
  exists M11 M12 M21 M22 : matrix,
    stiffness_local 3 2 1 1 1 1 0 0 1 = Ok [M11; M12; M21; M22] /\
    symmetric (assemble M11 M12 M21 M22) /\
    positive_semidefinite (assemble M11 M12 M21 M22).
Proof.
  assert (Hvalid : valid_input 3 2 1 1 1 1 0 0 1)
    by (unfold valid_input; repeat split; lra).
  split; [exact Hvalid | ].
  exact (stiffness_local_symmetric_psd 3 2 1 1 1 1 0 0 1 Hvalid).
Defined.

Lemma spec_phi_scaled (c I G A L E : R) :
  c <> 0 -> I = 0 \/ (G <> 0 /\ A <> 0 /\ L <> 0) ->
  spec_phi I (c * G) A L (c * E) = spec_phi I G A L E.
Proof.
  intros Hc [-> | (HG & HA & HL)].
  - now rewrite !spec_phi_zero.
  - unfold spec_phi. destruct (Req_dec_T I 0); [reflexivity | ].
    field. repeat split; assumption.
Qed.

Lemma zero_divisor_scaled (c L E G Ax Iz Iy Ay Az : R) :
  c <> 0 ->
  zero_divisor L (c * E) (c * G) Ax Iz Iy Ay Az <->
  zero_divisor L E G Ax Iz Iy Ay Az.
Proof.
  intros Hc. unfold zero_divisor. cbv zeta.
  set (Ay' := defaulted Ax Ay). set (Az' := defaulted Ax Az).
  assert (HcG : c * G = 0 <-> G = 0).
  { split; [intros H | intros ->; ring].
    apply Rmult_integral in H. tauto. }
  destruct (Req_dec_T L 0) as [HL | HL]; [tauto | ].
  destruct (Req_dec_T Iz 0) as [HIz | HIz];
    destruct (Req_dec_T Iy 0) as [HIy | HIy];
    destruct (Req_dec_T G 0) as [HG | HG];
    destruct (Req_dec_T Ay' 0) as [HAy | HAy];
    destruct (Req_dec_T Az' 0) as [HAz | HAz];
    try tauto;
    rewrite ?(spec_phi_scaled c Iz G Ay' L E) by tauto;
    rewrite ?(spec_phi_scaled c Iy G Az' L E) by tauto;
    tauto.
Qed.

(** X4.  The moduli enter as a common factor: multiplying [E] and [G] by
    the same non-zero number multiplies every entry of every block by that
    number, and raises on the same inputs. *)
Theorem stiffness_local_moduli_scale (c L E G Ax Iz Iy Ay Az J : R) :
  c <> 0 ->
  stiffness_local L (c * E) (c * G) Ax Iz Iy Ay Az J =
    (let! ms := stiffness_local L E G Ax Iz Iy Ay Az J in
     Ok (map (scale c) ms)).
Proof.
  intros Hc.
  destruct (stiffness_local_outcome L E G Ax Iz Iy Ay Az J)
    as [(Hz & ->) | (Hnz & ->)];
    destruct (stiffness_local_outcome L (c * E) (c * G) Ax Iz Iy Ay Az J)
      as [(Hz' & ->) | (Hnz' & ->)]; cbn [bind]; try reflexivity.
  - exfalso. apply Hnz'. now apply zero_divisor_scaled.
  - exfalso. apply Hnz. now apply (zero_divisor_scaled c).
  - assert (HL : L <> 0) by (intros H; apply Hnz; left; exact H).
    assert (HdY : Iz = 0 \/ (G <> 0 /\ defaulted Ax Ay <> 0 /\ L <> 0)).
    { destruct (Req_dec_T Iz 0); [tauto | right].
      unfold zero_divisor in Hnz. cbv zeta in Hnz. repeat split; tauto. }
    assert (HdZ : Iy = 0 \/ (G <> 0 /\ defaulted Ax Az <> 0 /\ L <> 0)).
    { destruct (Req_dec_T Iy 0); [tauto | right].
      unfold zero_divisor in Hnz. cbv zeta in Hnz. repeat split; tauto. }
    rewrite !spec_phi_scaled by assumption.
    assert (HY : spec_phi Iz G (defaulted Ax Ay) L E + 1 <> 0)
      by (intros H; apply Hnz; unfold zero_divisor; tauto).
    assert (HZ : spec_phi Iy G (defaulted Ax Az) L E + 1 <> 0)
      by (intros H; apply Hnz; unfold zero_divisor; tauto).
    set (phiY := spec_phi Iz G (defaulted Ax Ay) L E) in *.
    set (phiZ := spec_phi Iy G (defaulted Ax Az) L E) in *.
    unfold spec_bar, spec_k_pre. unfold_operations. f_equal.
    entrywise ltac:(field; auto).
Qed.

Lemma stiffness_local_moduli_scale_witness :
  stiffness_local 3 (10 * 2) (10 * 1) 1 1 1 0 0 1 =
    (let! ms := stiffness_local 3 2 1 1 1 1 0 0 1 in Ok (map (scale 10) ms)).
Proof.
  apply (stiffness_local_moduli_scale 10 3 2 1 1 1 1 0 0 1). lra.
Defined.

Lemma norm_nonzero (x y z : R) : (x, y, z) <> (0, 0, 0) -> norm x y z <> 0.
Proof. intros H. pose proof (norm_pos x y z H). lra. Qed.

Lemma stiffness_global_unfold
  (direction_cosines : R -> R -> R -> R -> mat3)
  (x y z E G Ax Iz Iy Ay Az theta J : R) :
  (x, y, z) <> (0, 0, 0) ->
  let t := block_diag (rows (direction_cosines x y z theta))
                      (rows (direction_cosines x y z theta)) in
  stiffness_global direction_cosines x y z E G Ax Iz Iy Ay Az theta J =
    (let! ms := stiffness_local (norm x y z) E G Ax Iz Iy Ay Az J in
     Ok (map (fun m => dot (dot t m) (transpose t)) ms)).
Proof.
  intros Hdir t. unfold stiffness_global, transformMatrix.
  destruct (Req_dec_T (norm x y z) 0) as [Hz | _]; [ | reflexivity].
  now apply norm_nonzero in Hz.
Qed.

Lemma stiffness_global_sample :
  exists gs : list matrix,
    stiffness_global identity_cosines 3 0 0 2 1 1 1 1 0 0 0 1 = Ok gs.
Proof.
  assert (Hdir : (3, 0, 0) <> (0, 0, 0)) by (intros H; injection H as H; lra).
  destruct (stiffness_global_value identity_cosines 3 0 0 2 1 1 1 1 0 0 0 1)
    as (a & s & phiY & kzPre & phiZ & kyPre & _ & _ & _ & _ & _ & _ & Hval).
  - unfold physically_valid. repeat split; solve [lra | exact Hdir].
  - right. rewrite defaulted_zero. lra.
  - right. rewrite defaulted_zero. lra.
  - eexists. exact Hval.
Qed.



Lemma block_diag_orthonormal (T : mat3) :
  dot (transpose (rows T)) (rows T) = rows identity3 ->
  let t := block_diag (rows T) (rows T) in
  dot (transpose t) t = block_diag (rows identity3) (rows identity3).
Proof.
  destruct T as [[[[a1 a2] a3] [[b1 b2] b3]] [[c1 c2] c3]].
  unfold_operations. intros H.
  injection H as H11 H12 H13 H21 H22 H23 H31 H32 H33.
  entrywise ltac:(lra).
Qed.

(** *** Products of 6x6 matrices *)

Lemma dot_assoc (A B C : matrix) :
  square 6 A -> square 6 B -> square 6 C ->
  dot A (dot B C) = dot (dot A B) C.
Proof.
  intros HA HB HC.
  explicit_square A HA. explicit_square B HB. explicit_square C HC.
  unfold_operations. entrywise ltac:(ring).
Qed.

Lemma dot_square (A B : matrix) :
  square 6 A -> square 6 B -> square 6 (dot A B).
Proof.
  intros HA HB. explicit_square A HA. explicit_square B HB. square_explicit.
Qed.

Lemma transpose_square (A : matrix) : square 6 A -> square 6 (transpose A).
Proof. intros HA. explicit_square A HA. square_explicit. Qed.

Lemma dot_identity_l (A : matrix) :
  square 6 A -> dot (block_diag (rows identity3) (rows identity3)) A = A.
Proof.
  intros HA. explicit_square A HA. unfold_operations. entrywise ltac:(ring).
Qed.

Lemma dot_identity_r (A : matrix) :
  square 6 A -> dot A (block_diag (rows identity3) (rows identity3)) = A.
Proof.
  intros HA. explicit_square A HA. unfold_operations. entrywise ltac:(ring).
Qed.

Lemma block_diag_square (T : mat3) : square 6 (block_diag (rows T) (rows T)).
Proof.
  destruct T as [[[[a1 a2] a3] [[b1 b2] b3]] [[c1 c2] c3]]. square_explicit.
Qed.

Lemma yields_square (a s : R) (kz ky : bending) :
  Forall (square 6) (yields a s kz ky).
Proof.
  unfold yields.
  repeat (apply Forall_cons; split; [square_explicit | ]).
  apply Forall_nil. exact I.
Qed.

(** Transforming with [t] and back with its transpose, when [r . t] is the
    identity. *)
Lemma transform_back (t m : matrix) :
  square 6 t -> square 6 m ->
  dot (transpose t) t = block_diag (rows identity3) (rows identity3) ->
  dot (dot (transpose t) (dot (dot t m) (transpose t))) t = m.
Proof.
  intros Ht Hm Horth.
  pose proof (transpose_square t Ht) as Hr.
  rewrite (dot_assoc (transpose t) (dot t m) (transpose t))
    by auto using dot_square.
  rewrite (dot_assoc (transpose t) t m) by assumption.
  rewrite Horth, (dot_identity_l m Hm).
  rewrite <- (dot_assoc m (transpose t) t) by assumption.
  rewrite Horth. apply dot_identity_r. exact Hm.
Qed.

(** X6.  Round trip.  When the transform matrix [T] has orthonormal
    columns ([T^t . T] is the identity), applying [r . g . t] to the blocks
    [g] that [stiffness_global] yields gives back the blocks of
    [stiffness_local]. *)
Theorem stiffness_global_round_trip
  (direction_cosines : R -> R -> R -> R -> mat3)
  (x y z E G Ax Iz Iy Ay Az theta J : R) (gs : list matrix) :
  let T := rows (direction_cosines x y z theta) in
  let t := block_diag T T in
  let r := transpose t in
  dot (transpose T) T = rows identity3 ->
  stiffness_global direction_cosines x y z E G Ax Iz Iy Ay Az theta J = Ok gs ->
  stiffness_local (norm x y z) E G Ax Iz Iy Ay Az J =
    Ok (map (fun g => dot (dot r g) t) gs).
Proof.
  intros T t r Horth Hok.
  assert (Hdir : (x, y, z) <> (0, 0, 0)).
  { intros H. injection H as -> -> ->.
    unfold stiffness_global, transformMatrix in Hok. rewrite norm_origin in Hok.
    destruct (Req_dec_T 0 0) as [_ | Hne]; [discriminate Hok | now contradict Hne]. }
  rewrite stiffness_global_unfold in Hok by assumption. cbv zeta in Hok.
  destruct (stiffness_local_outcome (norm x y z) E G Ax Iz Iy Ay Az J)
    as [(_ & Hr) | (_ & Hval)]; rewrite ?Hr, ?Hval in *; cbn [bind] in Hok;
    [discriminate Hok | ].
  injection Hok as <-. f_equal. fold T t r.
  pose proof (block_diag_square (direction_cosines x y z theta)) as Ht.
  pose proof (block_diag_orthonormal _ Horth) as Hrt. cbv zeta in Hrt.
  fold T t in Ht, Hrt.
  match goal with
  | |- yields ?a ?s ?kz ?ky = _ => pose proof (yields_square a s kz ky) as Hsq
  end.
  unfold yields in *. cbn [map].
  repeat (apply Forall_cons in Hsq; destruct Hsq as [? Hsq]).
  subst r. rewrite !transform_back by assumption. reflexivity.
Qed.

Lemma stiffness_global_round_trip_witness :
  exists gs : list matrix,
    let T := rows (identity_cosines 3 0 0 0) in
    let t := block_diag T T in
    stiffness_global identity_cosines 3 0 0 2 1 1 1 1 0 0 0 1 = Ok gs /\
    stiffness_local (norm 3 0 0) 2 1 1 1 1 0 0 1 =
      Ok (map (fun g => dot (dot (transpose t) g) t) gs).
Proof.
  destruct stiffness_global_sample as [gs Hok].
  exists gs. cbv zeta. split; [exact Hok | ].
  apply (stiffness_global_round_trip identity_cosines 3 0 0 2 1 1 1 1 0 0 0 1 gs);
    [ | exact Hok].
  unfold_operations. unfold identity_cosines. cbv beta iota.
  entrywise ltac:(ring).
Defined.

(** X7.  Whatever [stiffness_local] or [stiffness_global] yields is a list
    of exactly four matrices, each of six rows of six entries. *)
Theorem stiffness_blocks_shape
  (direction_cosines : R -> R -> R -> R -> mat3)
  (x y z L E G Ax Iz Iy Ay Az theta J : R) (ms : list matrix) :
  (stiffness_local L E G Ax Iz Iy Ay Az J = Ok ms ->
   length ms = 4%nat /\ Forall (square 6) ms) /\
  (stiffness_global direction_cosines x y z E G Ax Iz Iy Ay Az theta J = Ok ms ->
   length ms = 4%nat /\ Forall (square 6) ms).
Proof.
  split; intros Hok.
  - destruct (stiffness_local_yields_form _ _ _ _ _ _ _ _ _ _ Hok)
      as (_ & a & s & phiY & kzPre & phiZ & kyPre & ->).
    split; [reflexivity | apply yields_square].
  - unfold stiffness_global in Hok.
    destruct (transformMatrix direction_cosines x y z theta) as [tm | e] eqn:Htm;
      cbn [bind] in Hok; [ | discriminate Hok].
    unfold transformMatrix in Htm.
    destruct (Req_dec_T (norm x y z) 0); [discriminate Htm | ].
    injection Htm as <-.
    destruct (stiffness_local (norm x y z) E G Ax Iz Iy Ay Az J)
      as [ls | e] eqn:Hlocal; cbn [bind] in Hok; [ | discriminate Hok].
    injection Hok as <-.
    destruct (stiffness_local_yields_form _ _ _ _ _ _ _ _ _ _ Hlocal)
      as (_ & a & s & phiY & kzPre & phiZ & kyPre & ->).
    split; [reflexivity | ].
    pose proof (block_diag_square (direction_cosines x y z theta)) as Ht.
    pose proof (transpose_square _ Ht) as Hr.
    match goal with
    | |- context [yields ?a ?s ?kz ?ky] => pose proof (yields_square a s kz ky) as Hsq
    end.
    unfold yields in *. cbn [map].
    repeat (apply Forall_cons in Hsq; destruct Hsq as [? Hsq]).
    repeat (apply Forall_cons; split; [auto using dot_square | ]).
    apply Forall_nil. exact I.
Qed.

Lemma stiffness_blocks_shape_witness :
  exists ms gs : list matrix,
    stiffness_local 3 2 1 1 1 1 0 0 1 = Ok ms /\
    (length ms = 4%nat /\ Forall (square 6) ms) /\
    stiffness_global identity_cosines 3 0 0 2 1 1 1 1 0 0 0 1 = Ok gs /\
    (length gs = 4%nat /\ Forall (square 6) gs).
Proof.
  destruct stiffness_local_sample as [ms Hms].
  destruct stiffness_global_sample as [gs Hgs].
  exists ms, gs.
  split; [exact Hms | ]. split.
  - exact (proj1 (stiffness_blocks_shape identity_cosines
                    3 0 0 3 2 1 1 1 1 0 0 0 1 ms) Hms).
  - split; [exact Hgs | ].
    exact (proj2 (stiffness_blocks_shape identity_cosines
                    3 0 0 3 2 1 1 1 1 0 0 0 1 gs) Hgs).
Defined.

(** ** Further properties of section.py *)

(** X8.  [convert] uses its dictionary up: after any call, a second call on
    the same dictionary raises [KeyError] and leaves it as it is; a
    dictionary without ['shape'] is refused with [KeyError], untouched. *)
Theorem convert_twice_raises (d : gmap string value) :
  fst (convert (snd (convert d))) = Raise KeyError /\
  snd (convert (snd (convert d))) = snd (convert d) /\
  (d !! "shape" = None -> convert d = (Raise KeyError, d)).
Proof.
  assert (Hmissing : forall m : gmap string value,
            m !! "shape" = None -> convert m = (Raise KeyError, m)).
  { intros m Hm. unfold convert. rewrite Hm. reflexivity. }
  assert (Hpopped : snd (convert d) !! "shape" = None).
  { rewrite convert_leaves_popped. apply lookup_delete_eq. }
  rewrite (Hmissing _ Hpopped). auto.
Qed.

Lemma convert_twice_raises_witness :
  convert (<["D" := Num 2]> ∅) = (Raise KeyError, <["D" := Num 2]> ∅).
Proof.
  apply (proj2 (proj2 (convert_twice_raises (<["D" := Num 2]> ∅)))).
  rewrite lookup_insert_ne by discriminate. apply lookup_empty.
Defined.

(** X9.  The tags ['I'], ['C'] and ['R'] are dispatched to functions that
    the module does not define: [convert] and [properties] raise
    [NameError] for them, whatever the other parameters are. *)
Theorem convert_undefined_shape (tag : string) (d kwargs : gmap string value) :
  tag = "I" \/ tag = "C" \/ tag = "R" ->
  (d !! "shape" = Some (Str tag) -> fst (convert d) = Raise NameError) /\
  fst (properties (Str tag) kwargs) = Raise NameError.
Proof.
  intros Htag.
  assert (Hconv : forall m : gmap string value,
            m !! "shape" = Some (Str tag) -> fst (convert m) = Raise NameError).
  { intros m Hm. unfold convert. rewrite Hm.
    destruct Htag as [-> | [-> | ->]]; reflexivity. }
  split; [apply Hconv | ].
  unfold properties. apply Hconv. apply lookup_insert_eq.
Qed.

Lemma convert_undefined_shape_witness :
  fst (properties (Str "I") (<["H" := Num 2]> ∅)) = Raise NameError.
Proof.
  apply (convert_undefined_shape "I" ∅ (<["H" := Num 2]> ∅)). left. reflexivity.
Defined.

Lemma pdiv_raises (x y : R) (e : exn) :
  pdiv x y = Raise e -> e = ZeroDivisionError.
Proof.
  unfold pdiv. destruct (Req_dec_T y 0); intros H; [ | discriminate H].
  injection H as <-. reflexivity.
Qed.

Lemma psqrt_raises (x : R) (e : exn) : psqrt x = Raise e -> e = ValueError.
Proof.
  unfold psqrt. destruct (Rlt_dec x 0); intros H; [ | discriminate H].
  injection H as <-. reflexivity.
Qed.







Lemma psqrt_ok (x : R) : 0 <= x -> psqrt x = Ok (sqrt x).
Proof.
  intros Hx. unfold psqrt. destruct (Rlt_dec x 0); [lra | reflexivity].
Qed.

Lemma psqrt_negative (x : R) : x < 0 -> psqrt x = Raise ValueError.
Proof.
  intros Hx. unfold psqrt. destruct (Rlt_dec x 0); [reflexivity | lra].
Qed.

Lemma sqrt_of_square (x y : R) : x = y * y -> sqrt x = Rabs y.
Proof. intros ->. apply sqrt_Rsqr_abs. Qed.

(** X11.  A solid circle ([t = 0]) of non-zero diameter [D]: [o] returns
    the area [pi D^2 / 4], the moments of inertia [pi D^4 / 64], the polar
    moment [pi D^4 / 32], the radii of gyration [|D| / 4] and, as section
    moduli, [pi D^3 / 128].  For [D = 0] it raises [ZeroDivisionError],
    whatever the thickness. *)
Theorem o_solid (D th : R) :
  (D <> 0 ->
   o D 0 = Ok (<["Ax" := PI * D ^ 2 / 4]> (<["Iy" := PI * D ^ 4 / 64]>
              (<["Iz" := PI * D ^ 4 / 64]>
              (<["Zy" := PI * D ^ 3 / 128]> (<["Zz" := PI * D ^ 3 / 128]>
              (<["iy" := Rabs D / 4]> (<["iz" := Rabs D / 4]>
              (<["J" := PI * D ^ 4 / 32]> ∅))))))))) /\
  o 0 th = Raise ZeroDivisionError.
Proof.
  pose proof PI_RGT_0 as Hpi. split.
  - intros HD. unfold o.
    destruct (Req_dec_T 0 0) as [_ | Hne]; [ | now contradict Hne].
    cbn [fst snd].
    assert (HA : 0.25 * D ^ 2 * PI <> 0).
    { apply Rmult_integral_contrapositive. split; [ | lra].
      apply Rmult_integral_contrapositive. split; [lra | now apply pow_nonzero]. }
    rewrite (pdiv_ok _ D HD). cbn [bind].
    rewrite (pdiv_ok _ _ HA). cbn [bind].
    assert (Hq : 0.015625 * D ^ 4 * PI / (0.25 * D ^ 2 * PI) = D / 4 * (D / 4))
      by (fractions; field; split; lra).
    rewrite psqrt_ok by (rewrite Hq; nra). cbn [bind].
    rewrite (sqrt_of_square _ _ Hq).
    replace (Rabs (D / 4)) with (Rabs D / 4)
      by (unfold Rdiv; rewrite Rabs_mult, (Rabs_pos_eq (/ 4)); lra).
    f_equal. map_entries ltac:(fractions; field; assumption).
  - unfold o. cbv zeta. rewrite pdiv_raise by reflexivity. reflexivity.
Qed.

Lemma o_solid_witness :
  o 2 0 = Ok (<["Ax" := PI * 2 ^ 2 / 4]> (<["Iy" := PI * 2 ^ 4 / 64]>
             (<["Iz" := PI * 2 ^ 4 / 64]>
             (<["Zy" := PI * 2 ^ 3 / 128]> (<["Zz" := PI * 2 ^ 3 / 128]>
             (<["iy" := Rabs 2 / 4]> (<["iz" := Rabs 2 / 4]>
             (<["J" := PI * 2 ^ 4 / 32]> ∅)))))))).
Proof.
  apply (proj1 (o_solid 2 0)). lra.
Defined.

(** X12.  A pipe whose wall is thinner than the diameter, with
    [D^4 < (D - t)^2]: the inertia that [o] computes is negative (line 240
    subtracts the square of the inner diameter), and the square root of
    the radius of gyration raises [ValueError]. *)
Theorem o_thin_pipe_raises (D th : R) :
  0 < th -> th < D -> D ^ 4 < (D - th) ^ 2 ->
  o D th = Raise ValueError.
Proof.
  intros Hth HD Hneg. pose proof PI_RGT_0 as Hpi. unfold o.
  destruct (Req_dec_T th 0) as [Hz | _]; [lra | ]. cbn [fst snd].
  set (A := 0.25 * D ^ 2 * PI - 0.25 * (D - th) ^ 2 * PI).
  set (I := 0.015625 * D ^ 4 * PI - 0.015625 * (D - th) ^ 2 * PI).
  assert (HA : 0 < A).
  { unfold A. replace (0.25 * D ^ 2 * PI - 0.25 * (D - th) ^ 2 * PI)
      with (0.25 * PI * (th * (2 * D - th))) by ring.
    apply Rmult_lt_0_compat; [lra | ]. apply Rmult_lt_0_compat; lra. }
  assert (HI : I < 0).
  { unfold I. replace (0.015625 * D ^ 4 * PI - 0.015625 * (D - th) ^ 2 * PI)
      with (- (0.015625 * PI * ((D - th) ^ 2 - D ^ 4))) by ring.
    apply Ropp_lt_gt_0_contravar. apply Rmult_lt_0_compat; lra. }
  rewrite pdiv_ok by lra. cbn [bind].
  rewrite pdiv_ok by lra. cbn [bind].
  rewrite psqrt_negative; [reflexivity | ].
  unfold Rdiv. pose proof (Rinv_0_lt_compat A HA) as Hinv.
  replace (I * / A) with (- ((- I) * / A)) by ring.
  apply Ropp_lt_gt_0_contravar. apply Rmult_lt_0_compat; lra.
Qed.

Lemma o_thin_pipe_raises_witness : o (1 / 2) (1 / 10) = Raise ValueError.
Proof.
  apply (o_thin_pipe_raises (1 / 2) (1 / 10)); lra.
Defined.

Lemma radius_of_gyration (I A q i : R) :
  pdiv I A = Ok q -> psqrt q = Ok i -> 0 <= i /\ i * i * A = I.
Proof.
  unfold pdiv, psqrt.
  destruct (Req_dec_T A 0) as [ | HA]; [discriminate | ].
  intros Hq. injection Hq as <-.
  destruct (Rlt_dec (I / A) 0) as [ | Hpos]; [discriminate | ].
  intros Hi. injection Hi as <-.
  split; [apply sqrt_pos | ].
  rewrite sqrt_sqrt by lra. field. assumption.
Qed.

(** X13.  Whenever [h], [t] or [o] returns its dictionary, each radius of
    gyration in it is non-negative and agrees with the inertia and the
    area beside it: [iy^2 . Ax = Iy] and [iz^2 . Ax = Iz]. *)
Theorem gyration_radii_consistent (p1 p2 p3 p4 p5 : R) (d : gmap string R) :
  (h p1 p2 p3 p4 p5 = Ok d ->
   gyration_consistent d "Ax" "Iy" "iy" /\ gyration_consistent d "Ax" "Iz" "iz") /\
  (t p1 p2 p3 p4 p5 = Ok d ->
   gyration_consistent d "Ax" "Iy" "iy" /\ gyration_consistent d "Ax" "Iz" "iz") /\
  (o p1 p2 = Ok d ->
   gyration_consistent d "Ax" "Iy" "iy" /\ gyration_consistent d "Ax" "Iz" "iz").
Proof.
  unfold gyration_consistent.
  split; [ | split]; intros Hok;
    [unfold h in Hok | unfold t in Hok | unfold o in Hok];
    cbv zeta in Hok; open_binds Hok; injection Hok as <-;
    (split; do 3 eexists;
     repeat (split; [repeat (rewrite lookup_insert_ne by discriminate);
                     apply lookup_insert_eq | ]);
     eapply radius_of_gyration; eassumption).
Qed.

Lemma gyration_radii_consistent_witness :
  exists d : gmap string R,
    o 2 0 = Ok d /\
    gyration_consistent d "Ax" "Iy" "iy" /\ gyration_consistent d "Ax" "Iz" "iz".
Proof.
  destruct o_solid_circle as [d Hd]. exists d. split; [exact Hd | ].
  exact (proj2 (proj2 (gyration_radii_consistent 2 0 0 0 0 d)) Hd).
Defined.

Lemma PI_below_four : PI < 4.
Proof.
  pose proof (PI_ineq 1) as [_ H].
  unfold tg_alt, PI_tg in H. cbn in H. lra.
Qed.

(** X14.  An H section without fillets ([r = 0]) with positive flange
    width and thicknesses and flanges that fit in the height: [h] raises
    nothing and returns the area [2 B tf + (H - 2 tf) tw], the shear areas
    [2 tf B] and [tw H], the strong-axis inertia
    [(B H^3 - (B - tw) (H - 2 tf)^3) / 12] (the full rectangle less the two
    voids beside the web), the weak-axis inertia
    [(2 tf B^3 + (H - 2 tf) tw^3) / 12], and the moduli and radii derived
    from them. *)
Theorem h_without_fillets (H B tw tf : R) :
  0 < B -> 0 < tw -> 0 < tf -> 2 * tf <= H ->
  let Ax := 2 * B * tf + (H - 2 * tf) * tw in
  let Iy := (B * H ^ 3 - (B - tw) * (H - 2 * tf) ^ 3) / 12 in
  let Iz := (2 * tf * B ^ 3 + (H - 2 * tf) * tw ^ 3) / 12 in
  h H B tw tf 0 =
    Ok (<["Ax" := Ax]> (<["Ay" := 2 * tf * B]> (<["Az" := tw * H]>
       (<["Iy" := Iy]> (<["Iz" := Iz]>
       (<["J" := (2 * B * tf ^ 3 + (H - 2 * tf) * tw ^ 3) / 3]>
       (<["Zy" := 2 * Iy / H]> (<["Zz" := 2 * Iz / B]>
       (<["iy" := sqrt (Iy / Ax)]> (<["iz" := sqrt (Iz / Ax)]> ∅)))))))))).
Proof.
  intros HB Htw Htf HH Ax Iy Iz.
  assert (HAx : 0 < Ax).
  { unfold Ax. apply Rplus_lt_le_0_compat.
    - apply Rmult_lt_0_compat; [lra | assumption].
    - apply Rmult_le_pos; lra. }
  assert (Hweb : 0 <= (H - 2 * tf) ^ 3) by (apply pow_le; lra).
  assert (HIy : Iy = B * tf * (tf ^ 2 + 3 * (H - tf) ^ 2) / 6
                     + tw * (H - 2 * tf) ^ 3 / 12)
    by (unfold Iy; field).
  assert (HIy0 : 0 <= Iy).
  { rewrite HIy. apply Rplus_le_le_0_compat.
    - apply quotient_nonneg; [ | lra]. apply Rmult_le_pos.
      + apply Rmult_le_pos; lra.
      + pose proof (pow2_ge_0 tf). pose proof (pow2_ge_0 (H - tf)). lra.
    - apply quotient_nonneg; [ | lra]. apply Rmult_le_pos; lra. }
  assert (HIz0 : 0 <= Iz).
  { unfold Iz. apply quotient_nonneg; [ | lra]. apply Rplus_le_le_0_compat.
    - apply Rmult_le_pos; [lra | ]. apply pow_le. lra.
    - apply Rmult_le_pos; [lra | ]. apply pow_le. lra. }
  pose proof PI_below_four as Hpi.
  unfold h. cbv zeta.
  match goal with
  | |- context [bind (pdiv ?iy H) _] =>
      assert (EIy : iy = Iy) by (unfold Iy; fractions; field; lra); rewrite !EIy
  end.
  match goal with
  | |- context [bind (pdiv ?iz B) _] =>
      assert (EIz : iz = Iz) by (unfold Iz; fractions; field; lra); rewrite !EIz
  end.
  match goal with
  | |- context [bind (pdiv Iy ?a) _] =>
      assert (EA : a = Ax) by (unfold Ax; fractions; field; lra); rewrite !EA
  end.
  rewrite (pdiv_ok Iy H) by lra. cbn [bind].
  rewrite (pdiv_ok Iz B) by lra. cbn [bind].
  rewrite (pdiv_ok Iy Ax) by lra. cbn [bind].
  rewrite psqrt_ok by (apply quotient_nonneg; assumption). cbn [bind].
  rewrite (pdiv_ok Iz Ax) by lra. cbn [bind].
  rewrite psqrt_ok by (apply quotient_nonneg; assumption). cbn [bind].
  f_equal. map_entries ltac:(field; lra).
Qed.

Lemma h_without_fillets_witness :
  exists d : gmap string R,
    h 10 5 1 1 0 = Ok d /\ d !! "Ax" = Some (2 * 5 * 1 + (10 - 2 * 1) * 1).
Proof.
  pose proof (h_without_fillets 10 5 1 1
                ltac:(lra) ltac:(lra) ltac:(lra) ltac:(lra)) as Hh.
  cbv zeta in Hh. eexists. split; [exact Hh | ].
  apply lookup_insert_eq.
Defined.




(** X16.  A circle needs its diameter and takes nothing but ['D'] and
    ['t']: for the shape ['O'], [convert] raises [TypeError] when ['D'] is
    missing and when the dictionary has any other key. *)
Theorem convert_circle_keywords (d : gmap string value) (key : string) :
  d !! "shape" = Some (Str "O") ->
  (d !! "D" = None -> fst (convert d) = Raise TypeError) /\
  (key <> "shape" -> key <> "D" -> key <> "t" -> is_Some (d !! key) ->
   fst (convert d) = Raise TypeError).
Proof.
  intros Hshape. unfold convert. rewrite Hshape. cbn.
  unfold call_o, accepts, required. split.
  - intros HD. destruct (decide _); cbn [bind]; [ | reflexivity].
    rewrite lookup_delete_ne by discriminate. rewrite HD. reflexivity.
  - intros Hk1 Hk2 Hk3 Hsome. destruct (decide _) as [Hsub | _]; [ | reflexivity].
    exfalso.
    assert (Hin : key ∈ dom (delete "shape" d)).
    { apply elem_of_dom. rewrite lookup_delete_ne by congruence. exact Hsome. }
    apply Hsub in Hin. apply elem_of_list_to_set in Hin.
    repeat (apply elem_of_cons in Hin as [Hin | Hin]; [congruence | ]).
    apply elem_of_nil in Hin. exact Hin.
Qed.

Lemma convert_circle_keywords_witness :
  fst (convert (<["shape" := Str "O"]> ∅)) = Raise TypeError.
Proof.
  apply (proj1 (convert_circle_keywords (<["shape" := Str "O"]> ∅) "D"
                  (lookup_insert_eq _ _ _))).
  rewrite lookup_insert_ne by discriminate. apply lookup_empty.
Defined.

(** X17.  A T section without fillets ([r = 0]) with positive flange width
    and thicknesses and a flange that fits in the height: [t] raises
    nothing; the centroid distance ['Cz'] is the first moment
    [((B - tw) tf^2 + H^2 tw) / 2] over the area [B tf + (H - tf) tw], and
    the inertia ['Iy'] about the centroid obeys the parallel-axis relation
    with the inertia about the outer edge of the flange:
    [Iy + Ax Cz^2 = (B tf^3 + tw (H^3 - tf^3)) / 3]. *)
Theorem t_without_fillets (H B tw tf : R) :
  0 < B -> 0 < tw -> 0 < tf -> tf <= H ->
  exists (d : gmap string R) (Ax Cz Iy : R),
    t H B tw tf 0 = Ok d /\
    d !! "Ax" = Some Ax /\ d !! "Cz" = Some Cz /\ d !! "Iy" = Some Iy /\
    Ax = B * tf + (H - tf) * tw /\
    Cz * Ax = ((B - tw) * tf ^ 2 + H ^ 2 * tw) / 2 /\
    0 < Cz /\
    Iy + Ax * Cz ^ 2 = (B * tf ^ 3 + tw * (H ^ 3 - tf ^ 3)) / 3.
Proof.
  intros HB Htw Htf HH. pose proof PI_below_four as Hpi.
  set (A := B * tf + (H - tf) * tw).
  set (Sy := ((B - tw) * tf ^ 2 + H ^ 2 * tw) / 2).
  assert (HA : 0 < A).
  { unfold A. apply Rplus_lt_le_0_compat.
    - apply Rmult_lt_0_compat; assumption.
    - apply Rmult_le_pos; lra. }
  assert (HSy : 0 < Sy).
  { unfold Sy. apply Rdiv_lt_0_compat; [ | lra].
    replace ((B - tw) * tf ^ 2 + H ^ 2 * tw)
      with (B * tf ^ 2 + tw * ((H - tf) * (H + tf))) by ring.
    apply Rplus_lt_le_0_compat.
    - apply Rmult_lt_0_compat; [assumption | apply pow_lt; assumption].
    - apply Rmult_le_pos; [lra | ]. apply Rmult_le_pos; lra. }
  set (Cy := Sy / A).
  assert (HCy : 0 < Cy) by (apply Rdiv_lt_0_compat; assumption).
  set (Iy := B * tf ^ 3 / 12 + B * tf * (Cy - tf / 2) ^ 2
             + tw * (H - tf) ^ 3 / 12
             + tw * (H - tf) * ((H + tf) / 2 - Cy) ^ 2).
  set (Iz := (tf * B ^ 3 + (H - tf) * tw ^ 3) / 12).
  assert (HIy : 0 <= Iy).
  { unfold Iy. repeat apply Rplus_le_le_0_compat.
    - apply quotient_nonneg; [ | lra].
      apply Rmult_le_pos; [lra | apply pow_le; lra].
    - apply Rmult_le_pos; [apply Rmult_le_pos; lra | apply pow2_ge_0].
    - apply quotient_nonneg; [ | lra].
      apply Rmult_le_pos; [lra | apply pow_le; lra].
    - apply Rmult_le_pos; [apply Rmult_le_pos; lra | apply pow2_ge_0]. }
  assert (HIz : 0 <= Iz).
  { unfold Iz. apply quotient_nonneg; [ | lra]. apply Rplus_le_le_0_compat.
    - apply Rmult_le_pos; [lra | apply pow_le; lra].
    - apply Rmult_le_pos; [lra | apply pow_le; lra]. }
  assert (Hmax : Rmax Cy (H - Cy) <> 0).
  { pose proof (Rmax_l Cy (H - Cy)). lra. }
  exists (<["Ax" := A]> (<["Ay" := tf * B]> (<["Az" := tw * H]>
         (<["Iy" := Iy]> (<["Iz" := Iz]>
         (<["Zy" := Iy / Rmax Cy (H - Cy)]> (<["Zz" := Iz / B * 2]>
         (<["iy" := sqrt (Iy / A)]> (<["iz" := sqrt (Iz / A)]>
         (<["Cz" := Cy]> ∅)))))))))),
         A, Cy, Iy.
  split.
  - unfold t. cbv zeta.
    match goal with
    | |- context [bind (pdiv ?sy ?a) _] =>
        assert (EA : a = A) by (unfold A; fractions; field; lra);
        assert (ESy : sy = Sy) by (unfold Sy; fractions; field; lra);
        rewrite !EA, !ESy
    end.
    rewrite (pdiv_ok Sy A) by lra. cbn [bind]. fold Cy.
    match goal with
    | |- context [bind (pdiv ?iy (Rmax Cy (H - Cy))) _] =>
        assert (EIy : iy = Iy) by (unfold Iy; fractions; field; lra);
        rewrite !EIy
    end.
    match goal with
    | |- context [bind (pdiv ?iz B) _] =>
        assert (EIz : iz = Iz) by (unfold Iz; fractions; field; lra);
        rewrite !EIz
    end.
    rewrite (pdiv_ok Iy _ Hmax). cbn [bind].
    rewrite (pdiv_ok Iz B) by lra. cbn [bind].
    rewrite (pdiv_ok Iy A) by lra. cbn [bind].
    rewrite psqrt_ok by (apply quotient_nonneg; assumption). cbn [bind].
    rewrite (pdiv_ok Iz A) by lra. cbn [bind].
    rewrite psqrt_ok by (apply quotient_nonneg; assumption). cbn [bind].
    reflexivity.
  - split; [apply lookup_insert_eq | ].
    split; [repeat (rewrite lookup_insert_ne by discriminate);
            apply lookup_insert_eq | ].
    split; [repeat (rewrite lookup_insert_ne by discriminate);
            apply lookup_insert_eq | ].
    split; [reflexivity | ].
    assert (HA' : 0 < B * tf + (H - tf) * tw) by exact HA.
    split; [unfold Cy, Sy, A; field; lra | ].
    split; [assumption | ].
    unfold Iy, Cy, Sy, A. field. lra.
Qed.

Lemma t_without_fillets_witness :
  exists (d : gmap string R) (Ax Cz Iy : R),
    t 10 5 1 1 0 = Ok d /\
    d !! "Ax" = Some Ax /\ d !! "Cz" = Some Cz /\ d !! "Iy" = Some Iy /\
    Ax = 5 * 1 + (10 - 1) * 1 /\
    Cz * Ax = ((5 - 1) * 1 ^ 2 + 10 ^ 2 * 1) / 2 /\
    0 < Cz /\
    Iy + Ax * Cz ^ 2 = (5 * 1 ^ 3 + 1 * (10 ^ 3 - 1 ^ 3)) / 3.
Proof.
  apply (t_without_fillets 10 5 1 1); lra.
Defined.
